(** * Caltrain station (Lab3 - Mutex/caltrain.c): interleaving semantics

    The four operations of [caltrain.c] are embedded statement by statement.
    Every thread has a program point inside the operation it is running; one
    scheduler action executes one source statement of one thread.  The POSIX
    primitives are modelled as follows:

    - [pthread_mutex_lock] is enabled only when the mutex is free;
    - [pthread_cond_wait] releases the mutex and puts the thread to sleep in
      one atomic step, and a woken thread has to take the mutex again before
      it goes back to the loop test;
    - [pthread_cond_broadcast] wakes every thread sleeping on the condition;
    - a sleeping thread may also be woken spuriously.

    The counters are C [int]s: they are integers of [Z], and [++] / [--]
    have no successor state where C leaves the overflow undefined. *)

From stdpp Require Import base option list gmap.
From Stdlib Require Import ZArith Lia.

Local Open Scope Z_scope.

(** ** C integers *)

Definition INT_MAX : Z := 2147483647.
Definition INT_MIN : Z := -2147483648.

Definition is_int (z : Z) : bool := (INT_MIN <=? z) && (z <=? INT_MAX).

(* x++ *)
Definition incr (z : Z) : option Z :=
  if z <? INT_MAX then Some (z + 1) else None.

(* x-- *)
Definition decr (z : Z) : option Z :=
  if INT_MIN <? z then Some (z - 1) else None.

(** ** Threads and program points *)

Definition tid := nat.
Bind Scope nat_scope with tid.

(* load_train, caltrain.c lines 24-52 *)
Inductive load_pc :=
| L_lock            (* 26: pthread_mutex_lock *)
| L_seats           (* 29: seats_available = count *)
| L_quota           (* 35: people_to_sit = waiting < count ? waiting : count *)
| L_bcast           (* 38: pthread_cond_broadcast(train_arrived) *)
| L_test            (* 41: while (boarding < people_to_sit) *)
| L_wait            (* 43: pthread_cond_wait(all_boarded), about to release *)
| L_sleep           (* 43: asleep on all_boarded, mutex released *)
| L_wake            (* 43: woken up, taking the mutex again *)
| L_reset_boarding  (* 47: boarding = 0 *)
| L_reset_seats     (* 48: seats_available = 0 *)
| L_reset_quota     (* 49: people_to_sit = 0 *)
| L_unlock.         (* 51: pthread_mutex_unlock *)

(* wait_for_train, caltrain.c lines 54-76 *)
Inductive wait_pc :=
| W_lock            (* 56: pthread_mutex_lock *)
| W_inc             (* 59: waiting++ *)
| W_test            (* 62: while (seats_available == 0) *)
| W_wait            (* 65: pthread_cond_wait(train_arrived), about to release *)
| W_sleep           (* 65: asleep on train_arrived, mutex released *)
| W_wake            (* 65: woken up, taking the mutex again *)
| W_dec_seats       (* 72: seats_available-- *)
| W_dec_waiting     (* 73: waiting-- *)
| W_unlock.         (* 75: pthread_mutex_unlock *)

(* on_board, caltrain.c lines 78-93 *)
Inductive board_pc :=
| O_lock            (* 80: pthread_mutex_lock *)
| O_inc             (* 83: boarding++ *)
| O_test            (* 86: if (boarding == people_to_sit) *)
| O_bcast           (* 89: pthread_cond_broadcast(all_boarded) *)
| O_unlock.         (* 92: pthread_mutex_unlock *)

(* Where a thread is: outside the station code, or at a program point of
   one of the three operations ([count] is the parameter of load_train). *)
Inductive pc :=
| Idle
| InLoad (count : Z) (l : load_pc)
| InWait (w : wait_pc)
| InBoard (o : board_pc).

Inductive call :=
| load_train (count : Z)
| wait_for_train
| on_board.

Inductive cond := train_arrived | all_boarded.

Inductive event :=
| Invoke (t : tid) (c : call)
| Broadcast (t : tid) (c : cond)
| Return (t : tid) (c : call).

(** ** The shared object (caltrain.h, struct station) *)

(* The two condition variables carry no data of their own: the threads
   asleep on [train_arrived] are those at [W_sleep], the threads asleep on
   [all_boarded] those at [L_sleep]. *)
Record station := Station {
  waiting : Z;
  seats_available : Z;
  people_to_sit : Z;
  boarding : Z;
  lock : option tid           (* owner of the mutex, None when free *)
}.

Record state := State {
  stn : station;
  pool : gmap tid pc
}.

Definition pc_of (s : state) (t : tid) : pc := default Idle (pool s !! t).

Definition set_waiting (v : Z) (s : state) : state :=
  State (Station v (seats_available (stn s)) (people_to_sit (stn s))
           (boarding (stn s)) (lock (stn s))) (pool s).
Definition set_seats_available (v : Z) (s : state) : state :=
  State (Station (waiting (stn s)) v (people_to_sit (stn s))
           (boarding (stn s)) (lock (stn s))) (pool s).
Definition set_people_to_sit (v : Z) (s : state) : state :=
  State (Station (waiting (stn s)) (seats_available (stn s)) v
           (boarding (stn s)) (lock (stn s))) (pool s).
Definition set_boarding (v : Z) (s : state) : state :=
  State (Station (waiting (stn s)) (seats_available (stn s))
           (people_to_sit (stn s)) v (lock (stn s))) (pool s).
Definition set_lock (o : option tid) (s : state) : state :=
  State (Station (waiting (stn s)) (seats_available (stn s))
           (people_to_sit (stn s)) (boarding (stn s)) o) (pool s).

Definition goto (t : tid) (p : pc) (s : state) : state :=
  State (stn s) (<[t := p]> (pool s)).

(** ** POSIX primitives *)

Definition pthread_mutex_lock (t : tid) (s : state) : option state :=
  match lock (stn s) with
  | None => Some (set_lock (Some t) s)
  | Some _ => None
  end.

Definition pthread_mutex_unlock (s : state) : state := set_lock None s.

Definition wake (c : cond) (p : pc) : pc :=
  match c, p with
  | train_arrived, InWait W_sleep => InWait W_wake
  | all_boarded, InLoad n L_sleep => InLoad n L_wake
  | _, _ => p
  end.

Definition pthread_cond_broadcast (c : cond) (s : state) : state :=
  State (stn s) (wake c <$> pool s).

(** ** The operations, one statement per step *)

(* station_init: zero the counters, fresh mutex. *)
Definition station_init (_ : station) : station := Station 0 0 0 0 None.

Definition station_load_train (t : tid) (count : Z) (l : load_pc)
    (s : state) : option (list event * state) :=
  let next l' s' := goto t (InLoad count l') s' in
  match l with
  | L_lock => s' ← pthread_mutex_lock t s; Some ([], next L_seats s')
  | L_seats => Some ([], next L_quota (set_seats_available count s))
  | L_quota =>
      Some ([], next L_bcast
                  (set_people_to_sit
                     (if waiting (stn s) <? count then waiting (stn s) else count) s))
  | L_bcast =>
      Some ([Broadcast t train_arrived],
            next L_test (pthread_cond_broadcast train_arrived s))
  | L_test =>
      if boarding (stn s) <? people_to_sit (stn s)
      then Some ([], next L_wait s)
      else Some ([], next L_reset_boarding s)
  | L_wait => Some ([], next L_sleep (pthread_mutex_unlock s))
  | L_sleep => None
  | L_wake => s' ← pthread_mutex_lock t s; Some ([], next L_test s')
  | L_reset_boarding => Some ([], next L_reset_seats (set_boarding 0 s))
  | L_reset_seats => Some ([], next L_reset_quota (set_seats_available 0 s))
  | L_reset_quota => Some ([], next L_unlock (set_people_to_sit 0 s))
  | L_unlock =>
      Some ([Return t (load_train count)],
            goto t Idle (pthread_mutex_unlock s))
  end.

Definition station_wait_for_train (t : tid) (w : wait_pc)
    (s : state) : option (list event * state) :=
  let next w' s' := goto t (InWait w') s' in
  match w with
  | W_lock => s' ← pthread_mutex_lock t s; Some ([], next W_inc s')
  | W_inc => v ← incr (waiting (stn s)); Some ([], next W_test (set_waiting v s))
  | W_test =>
      if seats_available (stn s) =? 0
      then Some ([], next W_wait s)
      else Some ([], next W_dec_seats s)
  | W_wait => Some ([], next W_sleep (pthread_mutex_unlock s))
  | W_sleep => None
  | W_wake => s' ← pthread_mutex_lock t s; Some ([], next W_test s')
  | W_dec_seats =>
      v ← decr (seats_available (stn s));
      Some ([], next W_dec_waiting (set_seats_available v s))
  | W_dec_waiting =>
      v ← decr (waiting (stn s)); Some ([], next W_unlock (set_waiting v s))
  | W_unlock =>
      Some ([Return t wait_for_train],
            goto t Idle (pthread_mutex_unlock s))
  end.

Definition station_on_board (t : tid) (o : board_pc)
    (s : state) : option (list event * state) :=
  let next o' s' := goto t (InBoard o') s' in
  match o with
  | O_lock => s' ← pthread_mutex_lock t s; Some ([], next O_inc s')
  | O_inc => v ← incr (boarding (stn s)); Some ([], next O_test (set_boarding v s))
  | O_test =>
      if boarding (stn s) =? people_to_sit (stn s)
      then Some ([], next O_bcast s)
      else Some ([], next O_unlock s)
  | O_bcast =>
      Some ([Broadcast t all_boarded],
            next O_unlock (pthread_cond_broadcast all_boarded s))
  | O_unlock =>
      Some ([Return t on_board], goto t Idle (pthread_mutex_unlock s))
  end.

(** ** Scheduler *)

Inductive action :=
| Call (t : tid) (c : call)     (* an idle thread enters an operation *)
| Step (t : tid)                (* a thread executes its next statement *)
| Spurious (t : tid).           (* a sleeping thread wakes up by itself *)

Definition actor (a : action) : tid :=
  match a with Call t _ | Step t | Spurious t => t end.

Definition entry (c : call) : option pc :=
  match c with
  | load_train n => if is_int n then Some (InLoad n L_lock) else None
  | wait_for_train => Some (InWait W_lock)
  | on_board => Some (InBoard O_lock)
  end.

Definition step (a : action) (s : state) : option (list event * state) :=
  match a with
  | Call t c =>
      match pc_of s t with
      | Idle => p ← entry c; Some ([Invoke t c], goto t p s)
      | _ => None
      end
  | Step t =>
      match pc_of s t with
      | Idle => None
      | InLoad n l => station_load_train t n l s
      | InWait w => station_wait_for_train t w s
      | InBoard o => station_on_board t o s
      end
  | Spurious t =>
      match pc_of s t with
      | InLoad n L_sleep => Some ([], goto t (InLoad n L_wake) s)
      | InWait W_sleep => Some ([], goto t (InWait W_wake) s)
      | _ => None
      end
  end.

Fixpoint run (acts : list action) (s : state) : option (list event * state) :=
  match acts with
  | [] => Some ([], s)
  | a :: acts' =>
      '(e1, s1) ← step a s;
      '(e2, s2) ← run acts' s1;
      Some (e1 ++ e2, s2)
  end.

(* The station right after station_init, no thread inside it yet. *)
Definition initial : state := State (station_init (Station 0 0 0 0 None)) ∅.

(** ** Bookkeeping on runs *)



Definition event_actor (e : event) : tid :=
  match e with Invoke t _ | Broadcast t _ | Return t _ => t end.

Definition events_of (t : tid) (evs : list event) : list event :=
  filter (λ e, event_actor e = t) evs.

(* The thread is inside pthread_cond_wait of wait_for_train. *)
Definition blocked (p : pc) : Prop := p = InWait W_sleep ∨ p = InWait W_wake.

(* The thread is inside pthread_cond_wait of load_train. *)
Definition suspended (p : pc) : Prop :=
  ∃ n, p = InLoad n L_wait ∨ p = InLoad n L_sleep ∨ p = InLoad n L_wake.

(* Program points at which the thread owns the mutex. *)
Definition holds_lock (p : pc) : bool :=
  match p with
  | Idle => false
  | InLoad _ l => match l with L_lock | L_sleep | L_wake => false | _ => true end
  | InWait w => match w with W_lock | W_sleep | W_wake => false | _ => true end
  | InBoard o => match o with O_lock => false | _ => true end
  end.

(* Schedules in which every train has a non-negative number of seats. *)
Definition legal (a : action) : Prop :=
  match a with Call _ (load_train n) => 0 ≤ n | _ => True end.

(* Schedules in which thread [t] starts no new operation. *)
Definition no_call (t : tid) (a : action) : Prop :=
  match a with Call t' _ => t' ≠ t | _ => True end.

(* Schedules in which no thread at all announces a train. *)
Definition no_train (a : action) : Prop :=
  match a with Call _ (load_train _) => False | _ => True end.

Definition reachable (s : state) : Prop :=
  ∃ acts evs, run acts initial = Some (evs, s).

(* Where a run ends, for runs that are defined. *)
Definition state_after (acts : list action) (s : state) : state :=
  match run acts s with Some (_, s') => s' | None => s end.

Definition events_after (acts : list action) (s : state) : list event :=
  match run acts s with Some (evs, _) => evs | None => [] end.

(** ** Reading a trace *)

Definition is_on_board_return (e : event) : bool :=
  match e with Return _ on_board => true | _ => false end.

Definition is_load_invoke (c : tid) (e : event) : bool :=
  match e with Invoke t (load_train _) => bool_decide (t = c) | _ => false end.

Definition is_load_return (c : tid) (e : event) : bool :=
  match e with Return t (load_train _) => bool_decide (t = c) | _ => false end.

(* Number of on_board calls that return before load_train does. *)
Fixpoint boarded_until_return (c : tid) (evs : list event) : option nat :=
  match evs with
  | [] => None
  | e :: evs' =>
      if is_load_return c e then Some 0%nat
      else k ← boarded_until_return c evs';
           Some (if is_on_board_return e then S k else k)
  end.

(* Number of on_board calls that return between the first call of
   load_train by the controller [c] in [evs] and the return of that call. *)
Fixpoint boarded_in_window (c : tid) (evs : list event) : option nat :=
  match evs with
  | [] => None
  | e :: evs' =>
      if is_load_invoke c e then boarded_until_return c evs'
      else boarded_in_window c evs'
  end.

(* A passenger calls wait_for_train, and on_board once after each return
   of wait_for_train, and nothing else. *)
Fixpoint passenger_protocol (phase : nat) (evs : list event) : bool :=
  match evs with
  | [] => true
  | e :: evs' =>
      match phase, e with
      | _, Broadcast _ _ => passenger_protocol phase evs'
      | 0%nat, Invoke _ wait_for_train => passenger_protocol 1 evs'
      | 1%nat, Return _ wait_for_train => passenger_protocol 2 evs'
      | 2%nat, Invoke _ on_board => passenger_protocol 3 evs'
      | 3%nat, Return _ on_board => passenger_protocol 0 evs'
      | _, _ => false
      end
  end.

(* The controller only calls load_train, one call after the other. *)
Fixpoint controller_protocol (inside : bool) (evs : list event) : bool :=
  match evs with
  | [] => true
  | e :: evs' =>
      match inside, e with
      | _, Broadcast _ _ => controller_protocol inside evs'
      | false, Invoke _ (load_train _) => controller_protocol true evs'
      | true, Return _ (load_train _) => controller_protocol false evs'
      | _, _ => false
      end
  end.

(* One controller thread, the other threads are passengers, and all of
   them use the station as its contract asks. *)
Definition follows_protocol (c : tid) (passengers : list tid)
    (evs : list event) : bool :=
  controller_protocol false (events_of c evs)
  && forallb (λ t, passenger_protocol 0 (events_of t evs)) passengers
  && forallb (λ e, bool_decide (event_actor e ∈ c :: passengers)) evs
  && bool_decide (c ∉ passengers).

(** ** Schedules used below *)

Definition steps (t : tid) (k : nat) : list action := repeat (Step t) k.

(* A passenger arrives and falls asleep for want of a train. *)
Definition arrive (t : tid) : list action :=
  Call t wait_for_train :: steps t 4.

(* The controller announces a train and falls asleep until it is boarded. *)
Definition announce (c : tid) (count : Z) : list action :=
  Call c (load_train count) :: steps c 6.

(* A woken passenger takes the mutex, a seat, and returns. *)
Definition claim (t : tid) : list action := steps t 5.

(* A passenger arrives while seats are free and takes one at once. *)
Definition arrive_and_claim (t : tid) : list action :=
  Call t wait_for_train :: steps t 6.

(* on_board, with and without the broadcast of line 89. *)
Definition board_last (t : tid) : list action := Call t on_board :: steps t 5.
Definition board (t : tid) : list action := Call t on_board :: steps t 4.

(* The woken controller takes the mutex, resets the station and returns. *)
Definition depart (c : tid) : list action := steps c 6.

(* A whole call of load_train that never sleeps. *)
Definition pass_through (c : tid) (count : Z) : list action :=
  Call c (load_train count) :: steps c 9.

(* One passenger is waiting when a train with three seats is announced;
   two more passengers arrive while the train is in the station. *)
Definition take_three : list action :=
  announce 0 3 ++ claim 1 ++ arrive_and_claim 2 ++ arrive_and_claim 3.

Definition three_board : list action :=
  take_three ++ board_last 1 ++ board 2 ++ board 3 ++ depart 0.

(* The same train, seen when the second passenger has boarded. *)
Definition two_boarded : list action :=
  arrive 1 ++ announce 0 3 ++ claim 1 ++ arrive_and_claim 2
  ++ board_last 1 ++ board 2.

(* The train leaves as soon as the first passenger has boarded; the second
   passenger, who holds a seat of that train, boards afterwards. *)
Definition late_boarder : list action :=
  arrive 1 ++ announce 0 3 ++ claim 1 ++ arrive_and_claim 2
  ++ board_last 1 ++ depart 0 ++ board 2.

(** ** Invariants *)

Record mutex_inv (s : state) : Prop := MutexInv {
  inv_mutex : ∀ t, holds_lock (pc_of s t) = true → lock (stn s) = Some t;
  inv_boarding : 0 ≤ boarding (stn s)
}.

Record seats_inv (s : state) : Prop := SeatsInv {
  inv_count : ∀ t n l, pc_of s t = InLoad n l → 0 ≤ n;
  inv_seats : 0 ≤ seats_available (stn s);
  inv_claim : ∀ t, pc_of s t = InWait W_dec_seats → seats_available (stn s) ≠ 0
}.

(* What holds while thread [t], the only controller, runs load_train with
   parameter [n], having taken the mutex when the station was [st0]. *)
Definition load_progress (t : tid) (n : Z) (st0 : station) (s : state) : Prop :=
  match pc_of s t with
  | InLoad m l =>
      m = n ∧
      match l with
      | L_lock => False
      | L_seats => stn s = st0
      | L_quota =>
          seats_available (stn s) = n ∧ waiting (stn s) = waiting st0
      | L_bcast =>
          seats_available (stn s) = n ∧
          people_to_sit (stn s) = Z.min (waiting st0) n
      | L_unlock => people_to_sit (stn s) = 0
      | _ => people_to_sit (stn s) = Z.min (waiting st0) n
      end
  | _ => True
  end.

Definition sole_controller (t : tid) (s : state) : Prop :=
  ∀ t' m l, pc_of s t' = InLoad m l → t' = t.

Definition in_load (p : pc) : bool :=
  match p with InLoad _ _ => true | _ => false end.

(* The same, as a test on the finitely many threads of the pool. *)
Definition sole_controllerb (t : tid) (s : state) : bool :=
  bool_decide (map_Forall (λ t' p, in_load p = true → t' = t) (pool s)).

(* Thread [t] is inside the critical section of load_train with parameter
   [n], entered when the station was [st0], on the path that does not go
   through pthread_cond_wait; [e] are the events of the call so far. *)
Definition pass_inv (t : tid) (n : Z) (st0 : station) (e : list event)
    (s : state) : Prop :=
  match pc_of s t with
  | InLoad m l =>
      m = n ∧ waiting (stn s) = waiting st0 ∧
      match l with
      | L_seats => e = [] ∧ stn s = st0
      | L_quota => e = [] ∧ boarding (stn s) = boarding st0
      | L_bcast =>
          e = [] ∧ boarding (stn s) = boarding st0 ∧
          people_to_sit (stn s) = Z.min (waiting st0) n
      | L_test =>
          e = [Broadcast t train_arrived] ∧
          boarding (stn s) = boarding st0 ∧
          people_to_sit (stn s) = Z.min (waiting st0) n
      | L_reset_boarding | L_reset_seats =>
          e = [Broadcast t train_arrived] ∧
          people_to_sit (stn s) = Z.min (waiting st0) n
      | L_reset_quota =>
          e = [Broadcast t train_arrived] ∧ seats_available (stn s) = 0 ∧
          people_to_sit (stn s) = Z.min (waiting st0) n
      | L_unlock =>
          e = [Broadcast t train_arrived] ∧ seats_available (stn s) = 0 ∧
          people_to_sit (stn s) = 0
      | L_lock | L_wait | L_sleep | L_wake => False
      end
  | _ => False
  end.

Definition pass_post (t : tid) (n : Z) (st0 : station) (e : list event)
    (s : state) : Prop :=
  e = [Broadcast t train_arrived; Return t (load_train n)] ∧
  waiting (stn s) = waiting st0 ∧ seats_available (stn s) = 0 ∧
  people_to_sit (stn s) = 0.

(* What on_board of thread [t] has emitted when it returns, the station
   having been [st0] when it took the mutex. *)
Definition board_events (t : tid) (st0 : station) : list event :=
  if boarding st0 + 1 =? people_to_sit st0
  then [Broadcast t all_boarded; Return t on_board]
  else [Return t on_board].

(* Thread [t] is inside the critical section of on_board, entered when the
   station was [st0]; [e] are the events of the call so far. *)
Definition board_inv (t : tid) (st0 : station) (e : list event)
    (s : state) : Prop :=
  match pc_of s t with
  | InBoard o =>
      waiting (stn s) = waiting st0 ∧
      seats_available (stn s) = seats_available st0 ∧
      people_to_sit (stn s) = people_to_sit st0 ∧
      match o with
      | O_lock => False
      | O_inc => e = [] ∧ boarding (stn s) = boarding st0
      | O_test => e = [] ∧ boarding (stn s) = boarding st0 + 1
      | O_bcast =>
          e = [] ∧ boarding (stn s) = boarding st0 + 1 ∧
          boarding st0 + 1 = people_to_sit st0
      | O_unlock =>
          e ++ [Return t on_board] = board_events t st0 ∧
          boarding (stn s) = boarding st0 + 1
      end
  | _ => False
  end.

Definition board_post (t : tid) (st0 : station) (e : list event)
    (s : state) : Prop :=
  e = board_events t st0 ∧
  waiting (stn s) = waiting st0 ∧
  seats_available (stn s) = seats_available st0 ∧
  people_to_sit (stn s) = people_to_sit st0 ∧
  boarding (stn s) = boarding st0 + 1.


(* The thread is in the loop of wait_for_train, lines 62-68. *)
Definition in_wait_loop (p : pc) : Prop :=
  p = InWait W_test ∨ p = InWait W_wait ∨ blocked p.

(* No train is in the station and none is being announced; the threads of
   [B] are in the loop of wait_for_train. *)
Definition no_train_inv (B : tid → Prop) (s : state) : Prop :=
  seats_available (stn s) = 0 ∧
  (∀ t m l, pc_of s t ≠ InLoad m l) ∧
  (∀ t, pc_of s t ≠ InWait W_dec_seats) ∧
  (∀ t, B t → in_wait_loop (pc_of s t)).

(** ** Passengers counted by [waiting] *)

(* 1 at the program points between the increment of line 59 and the
   decrement of line 73, 0 elsewhere. *)
Definition counted (p : pc) : Z :=
  match p with
  | InWait (W_test | W_wait | W_sleep | W_wake | W_dec_seats | W_dec_waiting) => 1
  | _ => 0
  end.

(* Number of threads of the pool that are between line 59 and line 73. *)
Definition passengers_waiting (s : state) : Z :=
  map_fold (λ _ p k, counted p + k) 0 (pool s).

(** ** Tests made under the mutex *)

(* What the test that led a thread to the program point [p] has found. *)
Definition guard_ok (st : station) (p : pc) : Prop :=
  match p with
  | InLoad _ L_wait => boarding st < people_to_sit st
  | InLoad _ L_reset_boarding => people_to_sit st ≤ boarding st
  | InWait W_wait => seats_available st = 0
  | InWait W_dec_seats => seats_available st ≠ 0
  | InBoard O_bcast => boarding st = people_to_sit st
  | _ => True
  end.

(* Schedules in which only thread [c] announces trains. *)
Definition only_controller (c : tid) (a : action) : Prop :=
  match a with Call t (load_train _) => t = c | _ => True end.

(** ** Wake-ups *)

(* A controller has set [seats_available] (line 29) and has not yet
   broadcast [train_arrived] (line 38). *)
Definition announcing (s : state) : Prop :=
  ∃ c n, pc_of s c = InLoad n L_quota ∨ pc_of s c = InLoad n L_bcast.

(* An [on_board] has made [boarding] equal to [people_to_sit] (line 83) and
   has not yet broadcast [all_boarded] (line 89). *)
Definition signalling (s : state) : Prop :=
  ∃ t, pc_of s t = InBoard O_test ∨ pc_of s t = InBoard O_bcast.

(** ** Between two trains *)

(* What holds of the station according to where the controller [c] is:
   nothing is said while its train is in the station (from line 35 to line
   48); no seat is left once line 48 is done; otherwise no seat and no
   quota. *)
Definition train_gone (c : tid) (s : state) : Prop :=
  match pc_of s c with
  | InLoad _ (L_quota | L_bcast | L_test | L_wait | L_sleep | L_wake
              | L_reset_boarding | L_reset_seats) => True
  | InLoad _ L_reset_quota => seats_available (stn s) = 0
  | _ => seats_available (stn s) = 0 ∧ people_to_sit (stn s) = 0
  end.

(** ** Seats taken from a train *)

(* 1 when the action is the decrement of line 72 by some passenger. *)
Definition takes_seat (a : action) (s : state) : Z :=
  match a with
  | Step t => match pc_of s t with InWait W_dec_seats => 1 | _ => 0 end
  | _ => 0
  end.

(* Number of times line 72 is executed along the run of [acts] from [s]. *)
Fixpoint seats_taken (acts : list action) (s : state) : option Z :=
  match acts with
  | [] => Some 0
  | a :: acts' =>
      '(_, s1) ← step a s;
      k ← seats_taken acts' s1;
      Some (takes_seat a s + k)
  end.

(* The seats of the train of [n] seats announced by [c], [k] of them
   having been taken. *)
Definition seat_account (c : tid) (n k : Z) (s : state) : Prop :=
  match pc_of s c with
  | InLoad _ L_lock => False
  | InLoad m L_seats => m = n ∧ k = 0
  | InLoad m (L_quota | L_bcast | L_test | L_wait | L_sleep | L_wake
              | L_reset_boarding | L_reset_seats) =>
      m = n ∧ seats_available (stn s) = n - k ∧ 0 ≤ k
  | _ => seats_available (stn s) = 0 ∧ 0 ≤ k ≤ n
  end.

(** ** A passenger that finds a free seat *)

(* Thread [t] is inside the critical section of wait_for_train, entered
   when the station was [st0], on the path that does not go through
   pthread_cond_wait; [e] are the events of the call so far. *)
Definition take_inv (t : tid) (st0 : station) (e : list event)
    (s : state) : Prop :=
  match pc_of s t with
  | InWait w =>
      people_to_sit (stn s) = people_to_sit st0 ∧
      boarding (stn s) = boarding st0 ∧ e = [] ∧
      match w with
      | W_inc =>
          waiting (stn s) = waiting st0 ∧
          seats_available (stn s) = seats_available st0
      | W_test | W_dec_seats =>
          waiting (stn s) = waiting st0 + 1 ∧
          seats_available (stn s) = seats_available st0
      | W_dec_waiting =>
          waiting (stn s) = waiting st0 + 1 ∧
          seats_available (stn s) = seats_available st0 - 1
      | W_unlock =>
          waiting (stn s) = waiting st0 ∧
          seats_available (stn s) = seats_available st0 - 1
      | W_lock | W_wait | W_sleep | W_wake => False
      end
  | _ => False
  end.

Definition take_post (t : tid) (st0 : station) (e : list event)
    (s : state) : Prop :=
  e = [Return t wait_for_train] ∧
  waiting (stn s) = waiting st0 ∧
  seats_available (stn s) = seats_available st0 - 1 ∧
  people_to_sit (stn s) = people_to_sit st0 ∧
  boarding (stn s) = boarding st0.

(* [n] when the action is the assignment of line 29 by a controller whose
   train has [n] seats. *)
Definition offers_seats (a : action) (s : state) : Z :=
  match a with
  | Step t => match pc_of s t with InLoad n L_seats => n | _ => 0 end
  | _ => 0
  end.

(* Number of seats put on offer by line 29 along the run of [acts] from
   [s]. *)
Fixpoint seats_offered (acts : list action) (s : state) : option Z :=
  match acts with
  | [] => Some 0
  | a :: acts' =>
      '(_, s1) ← step a s;
      k ← seats_offered acts' s1;
      Some (offers_seats a s + k)
  end.

(** ** Whom the broadcast of on_board wakes *)

(* Between [s0] and [s] the threads asleep on [all_boarded] in [s0] have at
   most been woken up, and nobody has fallen asleep on [all_boarded]. *)
Definition sleepers_kept (s0 s : state) : Prop :=
  (∀ t' n, pc_of s0 t' = InLoad n L_sleep →
           pc_of s t' = InLoad n L_sleep ∨ pc_of s t' = InLoad n L_wake) ∧
  (∀ t' n, pc_of s t' = InLoad n L_sleep → pc_of s0 t' = InLoad n L_sleep).

(* Nobody is asleep on [all_boarded]. *)
Definition all_awake (s : state) : Prop :=
  ∀ t' n, pc_of s t' ≠ InLoad n L_sleep.

(* [board_inv], with the other threads: once line 89 is done nobody is
   asleep on [all_boarded]. *)
Definition board_pool_inv (t : tid) (s0 : state) (e : list event)
    (s : state) : Prop :=
  board_inv t (stn s0) e s ∧ sleepers_kept s0 s ∧
  (pc_of s t = InBoard O_unlock →
   boarding (stn s0) + 1 = people_to_sit (stn s0) → all_awake s).

Definition board_pool_post (t : tid) (s0 : state) (e : list event)
    (s : state) : Prop :=
  board_post t (stn s0) e s ∧ sleepers_kept s0 s ∧
  (boarding (stn s0) + 1 = people_to_sit (stn s0) → all_awake s).

(** * Basic facts *)

Lemma pc_of_goto t p s t' :
  pc_of (goto t p s) t' = if decide (t = t') then p else pc_of s t'.
Proof.
  unfold pc_of, goto; simpl. rewrite lookup_insert.
  destruct (decide (t = t')); reflexivity.
Qed.

Lemma pc_of_broadcast c s t :
  pc_of (pthread_cond_broadcast c s) t = wake c (pc_of s t).
Proof.
  unfold pc_of, pthread_cond_broadcast; simpl. rewrite lookup_fmap.
  destruct (pool s !! t); simpl; [reflexivity | by destruct c].
Qed.

Lemma pc_of_set_waiting v s t : pc_of (set_waiting v s) t = pc_of s t.
Proof. reflexivity. Qed.
Lemma pc_of_set_seats_available v s t :
  pc_of (set_seats_available v s) t = pc_of s t.
Proof. reflexivity. Qed.
Lemma pc_of_set_people_to_sit v s t :
  pc_of (set_people_to_sit v s) t = pc_of s t.
Proof. reflexivity. Qed.
Lemma pc_of_set_boarding v s t : pc_of (set_boarding v s) t = pc_of s t.
Proof. reflexivity. Qed.
Lemma pc_of_set_lock o s t : pc_of (set_lock o s) t = pc_of s t.
Proof. reflexivity. Qed.

Lemma holds_lock_wake c p : holds_lock (wake c p) = holds_lock p.
Proof. destruct c, p as [|n []|[]|[]]; reflexivity. Qed.

Arguments wake : simpl never.

Lemma wake_blocked c p : blocked p → blocked (wake c p).
Proof. intros [-> | ->]; destruct c; simpl; unfold blocked; auto. Qed.

Lemma run_cons a acts s :
  run (a :: acts) s =
  '(e1, s1) ← step a s; '(e2, s2) ← run acts s1; Some (e1 ++ e2, s2).
Proof. reflexivity. Qed.

Lemma run_app acts1 acts2 s :
  run (acts1 ++ acts2) s =
  '(e1, s1) ← run acts1 s; '(e2, s2) ← run acts2 s1; Some (e1 ++ e2, s2).
Proof.
  revert s. induction acts1 as [|a acts1 IH]; intros s; simpl.
  - destruct (run acts2 s) as [[e2 s2]|]; simpl; reflexivity.
  - destruct (step a s) as [[e1 s1]|]; simpl; [|reflexivity].
    rewrite IH. destruct (run acts1 s1) as [[e1' s1']|]; simpl; [|reflexivity].
    destruct (run acts2 s1') as [[e2 s2]|]; simpl; [|reflexivity].
    by rewrite app_assoc.
Qed.

Lemma run_snoc acts a s evs s' :
  run (acts ++ [a]) s = Some (evs, s') ↔
  ∃ e1 s1 e2, run acts s = Some (e1, s1) ∧ step a s1 = Some (e2, s')
              ∧ evs = e1 ++ e2.
Proof.
  rewrite run_app. split.
  - destruct (run acts s) as [[e1 s1]|]; simpl; [|discriminate].
    destruct (step a s1) as [[e2 s2]|] eqn:E2; simpl; [|discriminate].
    intros [= <- <-]. exists e1, s1, e2. rewrite app_nil_r. auto.
  - intros (e1 & s1 & e2 & -> & H2 & ->). simpl. rewrite H2. simpl.
    by rewrite app_nil_r.
Qed.

(* Case analysis on one scheduler action: one goal per statement. *)
Ltac unfold_stmt H :=
  unfold pthread_mutex_lock, incr, decr in H;
  repeat match type of H with
    | context [match lock ?x with _ => _ end] =>
        destruct (lock x) eqn:?; simpl in H; try discriminate H
    | context [if ?b then _ else _] =>
        destruct b eqn:?; simpl in H; try discriminate H
    end.

Ltac step_cases H :=
  match type of H with
  | step ?a ?s = Some _ =>
      let t := fresh "t" in
      let c := fresh "c" in
      let E := fresh "Hpc" in
      destruct a as [t c|t|t]; simpl in H;
      [ destruct (pc_of s t) eqn:E; try discriminate H;
        destruct c; simpl in H; unfold_stmt H
      | destruct (pc_of s t) as [|? [] |[]|[]] eqn:E; simpl in H;
        try discriminate H; unfold_stmt H
      | destruct (pc_of s t) as [|? [] |[]|[]] eqn:E; simpl in H;
        try discriminate H ];
      injection H as <- <-
  end.

Ltac pcs :=
  unfold pthread_mutex_unlock in *;
  repeat (rewrite pc_of_goto in * || rewrite pc_of_broadcast in *
          || rewrite holds_lock_wake in * || rewrite pc_of_set_waiting in *
          || rewrite pc_of_set_seats_available in *
          || rewrite pc_of_set_people_to_sit in *
          || rewrite pc_of_set_boarding in * || rewrite pc_of_set_lock in *);
  simpl in *.

Lemma step_mutex_inv a s evs s' :
  mutex_inv s → step a s = Some (evs, s') → mutex_inv s'.
Proof.
  intros [Hm Hb] H. step_cases H.
  all: split; simpl; try lia.
  all: intros t0; pcs; case_decide; subst; simpl; try done;
       rewrite ?holds_lock_wake; intros Ht0.
  all: try (apply Hm in Ht0; congruence).
  all: try (apply Hm; rewrite Hpc; reflexivity).
  all: pose proof (Hm t) as Ht; rewrite Hpc in Ht; specialize (Ht eq_refl);
       apply Hm in Ht0; congruence.
Qed.

Lemma wake_InLoad c p n l : wake c p = InLoad n l → ∃ l', p = InLoad n l'.
Proof.
  destruct c, p as [|m []|[]|[]]; unfold wake; simpl; intros [=]; subst; eauto.
Qed.

Lemma wake_dec_seats c p :
  wake c p = InWait W_dec_seats → p = InWait W_dec_seats.
Proof. destruct c, p as [|m []|[]|[]]; unfold wake; simpl; intros [=]; auto. Qed.

Lemma step_seats_inv a s evs s' :
  mutex_inv s → seats_inv s → legal a → step a s = Some (evs, s') →
  seats_inv s'.
Proof.
  intros [Hm _] [Hc Hs Hk] Hl H.
  assert (Hexcl : ∀ t t0, holds_lock (pc_of s t) = true →
                          holds_lock (pc_of s t0) = true → t = t0).
  { intros t t0 H1 H2. apply Hm in H1. apply Hm in H2. congruence. }
  step_cases H.
  all: split; simpl.
  (* the parameter of every train in progress *)
  all: try (intros t0 m l'; pcs; case_decide; subst;
            [ intros [= <- _]; first [ exact Hl | eapply Hc; eassumption ]
            | first [ apply Hc
                    | intros Hw; apply wake_InLoad in Hw as [? Hw]; eapply Hc;
                      eassumption ] ]; fail).
  all: try (intros t0 m l'; pcs; case_decide; subst;
            [ discriminate | first [ apply Hc
                    | intros Hw; apply wake_InLoad in Hw as [? Hw]; eapply Hc;
                      eassumption ] ]; fail).
  (* seats_available stays non-negative *)
  all: try (first [ exact Hs | lia | eapply Hc; eassumption ]; fail).
  all: try (specialize (Hk _ Hpc); lia).
  (* a seat is claimed only where one was seen *)
  all: intros t0; pcs; case_decide; subst; try discriminate.
  all: try (intros _; lia).
  all: try (apply Hk).
  all: try (intros Hw; apply wake_dec_seats in Hw; revert Hw; apply Hk).
  all: intros Ht0; exfalso;
       match goal with Hne : _ ≠ _ |- _ => apply Hne end;
       apply Hexcl; rewrite ?Hpc, ?Ht0; reflexivity.
Qed.

Lemma initial_mutex_inv : mutex_inv initial.
Proof. split; [intros t; discriminate | simpl; lia]. Qed.

Lemma initial_seats_inv : seats_inv initial.
Proof. split; [intros t n l; discriminate | simpl; lia | intros t; discriminate]. Qed.

Lemma run_mutex_inv acts : ∀ s evs s',
  mutex_inv s → run acts s = Some (evs, s') → mutex_inv s'.
Proof.
  induction acts as [|a acts IH]; simpl; intros s evs s' Hi H.
  - by injection H as _ <-.
  - destruct (step a s) as [[e1 s1]|] eqn:E1; simpl in H; [|discriminate].
    destruct (run acts s1) as [[e2 s2]|] eqn:E2; simpl in H; [|discriminate].
    injection H as _ <-. eauto using step_mutex_inv.
Qed.

Lemma run_seats_inv acts : ∀ s evs s',
  mutex_inv s → seats_inv s → Forall legal acts →
  run acts s = Some (evs, s') → seats_inv s'.
Proof.
  induction acts as [|a acts IH]; simpl; intros s evs s' Hi Hs Hl H.
  - by injection H as _ <-.
  - destruct (step a s) as [[e1 s1]|] eqn:E1; simpl in H; [|discriminate].
    destruct (run acts s1) as [[e2 s2]|] eqn:E2; simpl in H; [|discriminate].
    injection H as _ <-. inversion Hl; subst.
    eauto using step_mutex_inv, step_seats_inv.
Qed.

Lemma reachable_mutex_inv s : reachable s → mutex_inv s.
Proof. intros (acts & evs & H). eauto using run_mutex_inv, initial_mutex_inv. Qed.

Lemma reachable_run acts s evs s' :
  reachable s → run acts s = Some (evs, s') → reachable s'.
Proof.
  intros (acts0 & evs0 & H0) H. exists (acts0 ++ acts), (evs0 ++ evs).
  rewrite run_app, H0. simpl. rewrite H. reflexivity.
Qed.

(* Side conditions on concrete schedules. *)
Ltac check_schedule :=
  cbv [app arrive announce claim arrive_and_claim board_last board depart
       pass_through take_three steps repeat];
  repeat (constructor; [simpl; first [exact I | lia | discriminate]|]);
  constructor.

(** * No seat is claimed twice *)

(** C4. With non-negative train sizes, [seats_available] is never negative
    in a state reached from the initialized station, and a passenger that
    stands at the decrement of line 72 owns the mutex and has a positive
    number of seats in front of it, so that the decrement cannot go below
    zero. *)
Theorem seats_never_negative acts evs s :
  Forall legal acts → run acts initial = Some (evs, s) →
  0 ≤ seats_available (stn s) ∧
  ∀ t, pc_of s t = InWait W_dec_seats →
       lock (stn s) = Some t ∧ 0 < seats_available (stn s) ∧
       ∃ s', step (Step t) s = Some ([], s') ∧
             seats_available (stn s') = seats_available (stn s) - 1 ∧
             0 ≤ seats_available (stn s').
Proof.
  intros Hl H.
  pose proof (run_mutex_inv _ _ _ _ initial_mutex_inv H) as [Hm _].
  pose proof (run_seats_inv _ _ _ _ initial_mutex_inv initial_seats_inv Hl H)
    as [_ Hs Hk].
  split; [exact Hs|]. intros t Ht. specialize (Hk t Ht).
  split; [apply Hm; by rewrite Ht|]. split; [lia|].
  simpl. rewrite Ht. simpl. unfold decr.
  assert ((INT_MIN <? seats_available (stn s)) = true) as ->
    by (apply Z.ltb_lt; unfold INT_MIN; lia).
  simpl. eexists; split; [reflexivity|]. simpl. lia.
Qed.

Lemma seats_never_negative_witness :
  let acts := arrive 1 ++ announce 0 2 ++ steps 1 2 in
  let s := state_after acts initial in
  0 ≤ seats_available (stn s) ∧
  ∀ t, pc_of s t = InWait W_dec_seats →
       lock (stn s) = Some t ∧ 0 < seats_available (stn s) ∧
       ∃ s', step (Step t) s = Some ([], s') ∧
             seats_available (stn s') = seats_available (stn s) - 1 ∧
             0 ≤ seats_available (stn s').
Proof.
  intros acts s.
  apply (seats_never_negative acts (events_after acts initial) s).
  - subst acts. check_schedule.
  - vm_compute. reflexivity.
Defined.

(** * Passengers that arrive while a train is in the station *)

(** C1. The capacity property fails on the code.  Line 29 offers [count]
    seats while line 35 waits for [min waiting count] boardings only.  In
    the first run one passenger waits when [load_train 3] is called and
    three calls of [on_board] return before [load_train] does; in the second
    run one passenger waits when [load_train 1] is called and [load_train]
    returns with nobody on board.  Both runs follow the protocol: thread 0
    is the only controller, threads 1 to 3 call [wait_for_train] and then
    [on_board]. *)
Theorem capacity_violated :
  (∃ s1 s2 evs,
      run (arrive 1) initial = Some ([Invoke 1 wait_for_train], s1) ∧
      waiting (stn s1) = 1 ∧
      run three_board s1 = Some (evs, s2) ∧
      evs = [Invoke 0 (load_train 3); Broadcast 0 train_arrived;
             Return 1 wait_for_train;
             Invoke 2 wait_for_train; Return 2 wait_for_train;
             Invoke 3 wait_for_train; Return 3 wait_for_train;
             Invoke 1 on_board; Broadcast 1 all_boarded; Return 1 on_board;
             Invoke 2 on_board; Return 2 on_board;
             Invoke 3 on_board; Return 3 on_board;
             Return 0 (load_train 3)] ∧
      boarded_in_window 0 evs = Some 3%nat ∧
      Z.min (waiting (stn s1)) 3 = 1 ∧
      follows_protocol 0 [1; 2; 3]%nat (Invoke 1 wait_for_train :: evs) = true)
  ∧
  (∃ evs1 s1 s2 evs,
      run (late_boarder ++ arrive 3) initial = Some (evs1, s1) ∧
      waiting (stn s1) = 1 ∧ pc_of s1 3 = InWait W_sleep ∧
      run (pass_through 0 1) s1 = Some (evs, s2) ∧
      evs = [Invoke 0 (load_train 1); Broadcast 0 train_arrived;
             Return 0 (load_train 1)] ∧
      boarded_in_window 0 evs = Some 0%nat ∧
      Z.min (waiting (stn s1)) 1 = 1 ∧
      follows_protocol 0 [1; 2; 3]%nat (evs1 ++ evs) = true).
Proof.
  split.
  - exists (state_after (arrive 1) initial),
           (state_after (arrive 1 ++ three_board) initial),
           (events_after three_board (state_after (arrive 1) initial)).
    vm_compute. repeat split; reflexivity.
  - exists (events_after (late_boarder ++ arrive 3) initial),
           (state_after (late_boarder ++ arrive 3) initial),
           (state_after (late_boarder ++ arrive 3 ++ pass_through 0 1) initial),
           (events_after (pass_through 0 1)
              (state_after (late_boarder ++ arrive 3) initial)).
    vm_compute. repeat split; reflexivity.
Qed.

(** C2. The bound [boarding ≤ people_to_sit] fails on the code, for the
    reason given at C1: when the second of the passengers of [two_boarded]
    has returned from [on_board] the mutex is free, [people_to_sit] is 1
    and [boarding] is 2. *)
Theorem boarding_exceeds_quota :
  ∃ evs s,
    run two_boarded initial = Some (evs, s) ∧
    follows_protocol 0 [1; 2]%nat evs = true ∧
    lock (stn s) = None ∧
    people_to_sit (stn s) = 1 ∧ boarding (stn s) = 2 ∧
    ¬ (0 ≤ boarding (stn s) ≤ people_to_sit (stn s)).
Proof.
  exists (events_after two_boarded initial), (state_after two_boarded initial).
  vm_compute. repeat split; try reflexivity. intros [_ H]. apply H. reflexivity.
Qed.

(** C3. The station is not always reset between two trains, for the reason
    given at C1: in [late_boarder] the call [load_train 3] has returned, no
    other call of [load_train] has begun, every thread is outside the
    station code, and [boarding] is 1. *)
Theorem boarding_left_over :
  ∃ evs s,
    run late_boarder initial = Some (evs, s) ∧
    evs = [Invoke 1 wait_for_train;
           Invoke 0 (load_train 3); Broadcast 0 train_arrived;
           Return 1 wait_for_train;
           Invoke 2 wait_for_train; Return 2 wait_for_train;
           Invoke 1 on_board; Broadcast 1 all_boarded; Return 1 on_board;
           Return 0 (load_train 3);
           Invoke 2 on_board; Return 2 on_board] ∧
    follows_protocol 0 [1; 2]%nat evs = true ∧
    pool s = {[ 0%nat := Idle; 1%nat := Idle; 2%nat := Idle ]} ∧
    stn s = Station 0 0 0 1 None ∧
    ¬ (boarding (stn s) = 0 ∧ seats_available (stn s) = 0
       ∧ people_to_sit (stn s) = 0).
Proof.
  exists (events_after late_boarder initial), (state_after late_boarder initial).
  vm_compute. repeat split; try reflexivity. intros [H _]. discriminate H.
Qed.

(** * load_train *)

Lemma exclusion s t t' :
  mutex_inv s → holds_lock (pc_of s t) = true →
  holds_lock (pc_of s t') = true → t = t'.
Proof. intros [Hm _] H1 H2. apply Hm in H1. apply Hm in H2. congruence. Qed.

Lemma sole_controllerb_sound t s :
  sole_controllerb t s = true → sole_controller t s.
Proof.
  unfold sole_controllerb, sole_controller, pc_of.
  intros H t' m l Hp. apply bool_decide_eq_true_1 in H.
  destruct (pool s !! t') as [p|] eqn:E; simpl in Hp; [|discriminate].
  apply (H t' p E). by subst p.
Qed.

Lemma step_sole_controller t a s evs s' :
  sole_controller t s → no_train a → step a s = Some (evs, s') →
  sole_controller t s'.
Proof.
  unfold sole_controller. intros Hsole Hnt H. step_cases H.
  all: intros t' m l'; pcs; case_decide; subst; try discriminate; try done.
  all: try (intros _; eapply Hsole; eassumption).
  all: try apply Hsole.
  all: intros Hw; apply wake_InLoad in Hw as [? Hw]; eapply Hsole; eassumption.
Qed.

Lemma step_load_progress t n st0 a s evs s' :
  mutex_inv s → sole_controller t s → load_progress t n st0 s →
  no_train a → step a s = Some (evs, s') → load_progress t n st0 s'.
Proof.
  intros Hi Hsole Hq Hnt H. unfold load_progress in *.
  pose proof (exclusion s t (actor a) Hi) as Hexcl.
  pose proof (inv_mutex s Hi t) as Hown.
  step_cases H; simpl in Hexcl.
  all: destruct (decide (t0 = t)) as [->|Hne];
    [ rewrite Hpc in Hq; pcs; rewrite decide_True by done; simpl
    | pcs; rewrite decide_False by done ].
  (* the controller itself moves *)
  all: try (exact I).
  all: try (exfalso; exact Hnt).
  all: try match type of Hq with
           | _ ∧ _ =>
               destruct Hq as [-> Hq]; repeat split; simpl in *;
               first [done | lia | by rewrite <- Hq]
           end.
  (* another thread moves: it is a passenger, and it cannot be inside its
     critical section while the controller is inside its own *)
  all: try (exfalso; apply Hne; eapply Hsole; eassumption).
  all: destruct (pc_of s t) as [|m []|[]|[]] eqn:Ht; unfold wake; simpl in *;
       try exact I.
  all: try (exfalso; apply Hne; symmetry; apply Hexcl; rewrite ?Hpc; reflexivity).
  all: try (specialize (Hown eq_refl); congruence).
  all: try exact Hq.
Qed.

Lemma run_load_progress t n st0 acts : ∀ s evs s',
  mutex_inv s → sole_controller t s → load_progress t n st0 s →
  Forall no_train acts → run acts s = Some (evs, s') →
  load_progress t n st0 s'.
Proof.
  induction acts as [|a acts IH]; simpl; intros s evs s' Hi Hsole Hq Hnt H.
  - by injection H as _ <-.
  - destruct (step a s) as [[e1 s1]|] eqn:E1; simpl in H; [|discriminate].
    destruct (run acts s1) as [[e2 s2]|] eqn:E2; simpl in H; [|discriminate].
    injection H as _ <-. inversion Hnt as [|? ? Ha Hacts]; subst.
    apply (IH s1 e2 s2); eauto using step_mutex_inv, step_sole_controller,
      step_load_progress.
Qed.

(** C5. Let thread [t], the only controller, have just taken the mutex in
    [load_train n], in a state [s0].  Its next two statements set
    [seats_available] to [n] and [people_to_sit] to [min waiting n], with
    [waiting] as it is in [s0]; and however the threads are scheduled from
    [s0], [people_to_sit] keeps that value at every later statement of the
    call, up to the reset of line 49, whatever [waiting] has become. *)
Theorem quota_computed_once t n s0 :
  reachable s0 → pc_of s0 t = InLoad n L_seats → sole_controller t s0 →
  (∃ s2, run (steps t 2) s0 = Some ([], s2) ∧
         pc_of s2 t = InLoad n L_bcast ∧
         seats_available (stn s2) = n ∧
         people_to_sit (stn s2) = Z.min (waiting (stn s0)) n) ∧
  ∀ acts evs s,
    Forall no_train acts → run acts s0 = Some (evs, s) →
    ∀ m l, pc_of s t = InLoad m l →
      m = n ∧
      match l with
      | L_lock => False
      | L_seats => stn s = stn s0
      | L_quota =>
          seats_available (stn s) = n ∧ waiting (stn s) = waiting (stn s0)
      | L_bcast =>
          seats_available (stn s) = n ∧
          people_to_sit (stn s) = Z.min (waiting (stn s0)) n
      | L_test | L_wait | L_sleep | L_wake
      | L_reset_boarding | L_reset_seats | L_reset_quota =>
          people_to_sit (stn s) = Z.min (waiting (stn s0)) n
      | L_unlock => people_to_sit (stn s) = 0
      end.
Proof.
  intros Hr Ht Hsole. split.
  - simpl. rewrite Ht. simpl. pcs. rewrite decide_True by done. simpl.
    eexists. split; [reflexivity|]. pcs. rewrite decide_True by done.
    repeat split. destruct (Z.ltb_spec (waiting (stn s0)) n); lia.
  - intros acts evs s Hnt H m l Hs.
    assert (Hq : load_progress t n (stn s0) s).
    { eapply run_load_progress; eauto using reachable_mutex_inv.
      unfold load_progress. rewrite Ht. done. }
    unfold load_progress in Hq. rewrite Hs in Hq.
    destruct Hq as [-> Hq]. split; [reflexivity|]. destruct l; exact Hq.
Qed.

Lemma quota_computed_once_witness :
  let s0 := state_after (arrive 1 ++ [Call 0 (load_train 3); Step 0]) initial in
  let s := state_after (steps 0 5 ++ claim 1) s0 in
  waiting (stn s0) = 1 ∧ waiting (stn s) = 0 ∧
  pc_of s 0 = InLoad 3 L_sleep ∧
  people_to_sit (stn s) = Z.min (waiting (stn s0)) 3.
Proof.
  intros s0 s.
  assert (Hr : reachable s0).
  { exists (arrive 1 ++ [Call 0 (load_train 3); Step 0]),
           [Invoke 1 wait_for_train; Invoke 0 (load_train 3)].
    vm_compute. reflexivity. }
  assert (H0 : pc_of s0 0 = InLoad 3 L_seats) by (vm_compute; reflexivity).
  assert (Hsole : sole_controller 0 s0)
    by (apply sole_controllerb_sound; vm_compute; reflexivity).
  destruct (quota_computed_once 0 3 s0 Hr H0 Hsole) as [_ Hall].
  assert (Hrun : run (steps 0 5 ++ claim 1) s0
                 = Some (events_after (steps 0 5 ++ claim 1) s0, s))
    by (vm_compute; reflexivity).
  assert (Hnt : Forall no_train (steps 0 5 ++ claim 1))
    by check_schedule.
  assert (Hs : pc_of s 0 = InLoad 3 L_sleep) by (vm_compute; reflexivity).
  destruct (Hall _ _ _ Hnt Hrun _ _ Hs) as [_ Hq].
  split; [vm_compute; reflexivity|]. split; [vm_compute; reflexivity|].
  split; [exact Hs | exact Hq].
Defined.

(** * Critical sections run as if alone *)

Lemma events_of_app t e1 e2 :
  events_of t (e1 ++ e2) = events_of t e1 ++ events_of t e2.
Proof. unfold events_of. apply filter_app. Qed.

Lemma events_of_own t evs :
  Forall (λ e, event_actor e = t) evs → events_of t evs = evs.
Proof.
  unfold events_of. induction 1 as [|e evs He _ IH]; [reflexivity|].
  rewrite filter_cons_True by done. by rewrite IH.
Qed.

Lemma events_of_other t evs :
  Forall (λ e, event_actor e ≠ t) evs → events_of t evs = [].
Proof.
  unfold events_of. induction 1 as [|e evs He _ IH]; [reflexivity|].
  by rewrite filter_cons_False.
Qed.

Lemma step_events_actor a s evs s' :
  step a s = Some (evs, s') → Forall (λ e, event_actor e = actor a) evs.
Proof. intros H. step_cases H; repeat constructor. Qed.

Lemma step_events_other t a s evs s' :
  actor a ≠ t → step a s = Some (evs, s') → events_of t evs = [].
Proof.
  intros Hne H. apply events_of_other.
  eapply Forall_impl; [eapply step_events_actor, H|].
  simpl. intros e ->. exact Hne.
Qed.

(* While [t] owns the mutex the other threads can only enter an operation
   or be woken up: the station is out of their reach. *)
Lemma other_step_frame t a s evs s' :
  mutex_inv s → holds_lock (pc_of s t) = true → actor a ≠ t →
  step a s = Some (evs, s') →
  stn s' = stn s ∧ pc_of s' t = pc_of s t ∧
  ∀ t', blocked (pc_of s t') → blocked (pc_of s' t').
Proof.
  intros Hi Ht Hne H.
  pose proof (exclusion s t (actor a) Hi Ht) as Hexcl.
  pose proof (inv_mutex s Hi t Ht) as Hown.
  step_cases H; simpl in Hexcl, Hne.
  all: try (exfalso; apply Hne; symmetry; apply Hexcl; rewrite Hpc; reflexivity).
  all: try congruence.
  all: split; [reflexivity|]; split; [pcs; by rewrite decide_False|].
  all: intros t'; pcs; case_decide; subst; try done.
  all: rewrite Hpc; unfold blocked; intros [?|?]; try discriminate; auto.
Qed.

Lemma own_step_blocked t s evs s' :
  holds_lock (pc_of s t) = true → step (Step t) s = Some (evs, s') →
  ∀ t', blocked (pc_of s t') → blocked (pc_of s' t').
Proof.
  intros Ht H t'. simpl in H.
  destruct (pc_of s t) as [|n []|[]|[]] eqn:Hpc; try discriminate Ht;
    simpl in H; unfold_stmt H; injection H as <- <-.
  all: pcs; case_decide; subst; try done.
  all: try (rewrite Hpc; unfold blocked; intros [?|?]; discriminate).
  all: apply wake_blocked.
Qed.

Lemma idle_run t acts : ∀ s evs s',
  pc_of s t = Idle → Forall (no_call t) acts → run acts s = Some (evs, s') →
  pc_of s' t = Idle ∧ events_of t evs = [] ∧ last acts ≠ Some (Step t).
Proof.
  induction acts as [|a acts IH]; simpl; intros s evs s' Ht Hnc H.
  - injection H as <- <-. done.
  - destruct (step a s) as [[e1 s1]|] eqn:E1; simpl in H; [|discriminate].
    destruct (run acts s1) as [[e2 s2]|] eqn:E2; simpl in H; [|discriminate].
    injection H as <- <-. inversion Hnc as [|? ? Ha Hacts]; subst.
    assert (Hne : actor a ≠ t).
    { destruct a as [t1 c|t1|t1]; simpl in *; [done| |]; intros ->;
        rewrite Ht in E1; discriminate. }
    assert (Ht1 : pc_of s1 t = Idle).
    { clear E2. step_cases E1; simpl in Hne; pcs;
        rewrite ?decide_False by done; rewrite ?Ht; done. }
    destruct (IH _ _ _ Ht1 Hacts E2) as (? & He2 & Hlast).
    split; [done|]. split.
    + rewrite events_of_app, He2, (step_events_other _ _ _ _ _ Hne E1). done.
    + destruct acts; [|done]. destruct a; simpl in *; congruence.
Qed.

Section atomic.
Variable t : tid.
(* [P e s]: the thread is inside its critical section, having emitted
   the events [e]; [Q e s]: it has just left the operation. *)
Variables P Q : list event → state → Prop.
Hypothesis P_locked : ∀ e s, P e s → holds_lock (pc_of s t) = true.
Hypothesis P_frame : ∀ e s s',
  P e s → stn s' = stn s → pc_of s' t = pc_of s t → P e s'.
Hypothesis P_step : ∀ e s e1 s',
  mutex_inv s → P e s → step (Step t) s = Some (e1, s') →
  P (e ++ e1) s' ∨ (pc_of s' t = Idle ∧ Q (e ++ e1) s').

Lemma atomic_run acts : ∀ e s evs s',
  mutex_inv s → P e s → Forall (no_call t) acts →
  run acts s = Some (evs, s') →
  (P (e ++ events_of t evs) s'
   ∧ ∀ t', blocked (pc_of s t') → blocked (pc_of s' t'))
  ∨ (pc_of s' t = Idle
     ∧ (last acts = Some (Step t) →
        Q (e ++ events_of t evs) s'
        ∧ ∀ t', blocked (pc_of s t') → blocked (pc_of s' t'))).
Proof.
  induction acts as [|a acts IH]; simpl; intros e s evs s' Hi HP Hnc H.
  - injection H as <- <-. left. rewrite app_nil_r. done.
  - destruct (step a s) as [[e1 s1]|] eqn:E1; simpl in H; [|discriminate].
    destruct (run acts s1) as [[e2 s2]|] eqn:E2; simpl in H; [|discriminate].
    injection H as <- <-. inversion Hnc as [|? ? Ha Hacts]; subst.
    pose proof (P_locked _ _ HP) as Hl.
    pose proof (step_mutex_inv _ _ _ _ Hi E1) as Hi1.
    rewrite events_of_app.
    destruct (decide (actor a = t)) as [Heq|Hne].
    + assert (a = Step t) as ->.
      { destruct a as [t1 c|t1|t1]; simpl in *; subst; [done|done|].
        destruct (pc_of s t) as [|n []|[]|[]]; discriminate. }
      pose proof (own_step_blocked _ _ _ _ Hl E1) as Hb.
      rewrite (events_of_own t e1) by apply (step_events_actor _ _ _ _ E1).
      rewrite app_assoc.
      destruct (P_step _ _ _ _ Hi HP E1) as [HP1|[Hidle HQ]].
      * destruct (IH _ _ _ _ Hi1 HP1 Hacts E2) as [[? ?]|[? Hlast]].
        -- left. split; [done|]. auto.
        -- right. split; [done|]. destruct acts as [|a' acts].
           ++ simpl in E2. injection E2 as <- <-.
              apply P_locked in HP1. rewrite H in HP1. discriminate.
           ++ intros Hl'. destruct (Hlast Hl') as [? ?]. split; [done|]. auto.
      * destruct (idle_run _ _ _ _ _ Hidle Hacts E2) as (? & -> & Hlast).
        right. split; [done|]. destruct acts as [|a' acts].
        -- simpl in E2. injection E2 as _ <-. intros _.
           rewrite app_nil_r. split; [done|]. auto.
        -- intros Hl'. done.
    + destruct (other_step_frame _ _ _ _ _ Hi Hl Hne E1) as (Hst & Hpc & Hb).
      rewrite (step_events_other _ _ _ _ _ Hne E1). simpl.
      destruct (IH _ _ _ _ Hi1 (P_frame _ _ _ HP Hst Hpc) Hacts E2)
        as [[? ?]|[? Hlast]].
      * left. split; [done|]. auto.
      * right. split; [done|]. destruct acts as [|a' acts].
        -- simpl in E2. injection E2 as <- <-.
           apply P_locked in HP. rewrite <- Hpc, H in HP. discriminate.
        -- intros Hl'. destruct (Hlast Hl') as [? ?]. split; [done|]. auto.
Qed.
End atomic.

(** * Trains that need not wait *)

Lemma pc_of_goto_eq t p s : pc_of (goto t p s) t = p.
Proof. rewrite pc_of_goto. by rewrite decide_True. Qed.

Lemma pass_inv_locked t n st0 e s :
  pass_inv t n st0 e s → holds_lock (pc_of s t) = true.
Proof.
  unfold pass_inv. destruct (pc_of s t) as [|m []|[]|[]]; simpl; tauto.
Qed.

Lemma pass_inv_frame t n st0 e s s' :
  pass_inv t n st0 e s → stn s' = stn s → pc_of s' t = pc_of s t →
  pass_inv t n st0 e s'.
Proof. unfold pass_inv. intros H -> ->. exact H. Qed.

Lemma pass_inv_step t n st0 e s e1 s' :
  Z.min (waiting st0) n ≤ boarding st0 →
  pass_inv t n st0 e s → step (Step t) s = Some (e1, s') →
  pass_inv t n st0 (e ++ e1) s'
  ∨ (pc_of s' t = Idle ∧ pass_post t n st0 (e ++ e1) s').
Proof.
  unfold pass_inv, pass_post. intros Hle HP H. simpl in H.
  destruct (pc_of s t) as [|m []|[]|[]] eqn:Hpc; try tauto;
    simpl in H; unfold_stmt H; injection H as <- <-;
    rewrite pc_of_goto_eq; simpl;
    destruct HP as (-> & Hw & HP).
  all: try (left; intuition (subst; simpl; auto; lia)).
  right. destruct HP as (-> & ? & ?). done.
Qed.

Lemma pass_through_any t n s0 acts evs s :
  mutex_inv s0 → pc_of s0 t = InLoad n L_seats →
  Z.min (waiting (stn s0)) n ≤ boarding (stn s0) →
  Forall (no_call t) acts → run acts s0 = Some (evs, s) →
  (pass_inv t n (stn s0) (events_of t evs) s
   ∧ ∀ t', blocked (pc_of s0 t') → blocked (pc_of s t'))
  ∨ (pc_of s t = Idle
     ∧ (last acts = Some (Step t) →
        pass_post t n (stn s0) (events_of t evs) s
        ∧ ∀ t', blocked (pc_of s0 t') → blocked (pc_of s t'))).
Proof.
  intros Hi Ht Hle Hnc H.
  apply (atomic_run t (pass_inv t n (stn s0)) (pass_post t n (stn s0))
           (pass_inv_locked t n (stn s0)) (pass_inv_frame t n (stn s0))
           (λ e s e1 s' _, pass_inv_step t n (stn s0) e s e1 s' Hle)
           acts [] s0 evs s Hi); [|done..].
  unfold pass_inv. rewrite Ht. done.
Qed.

Arguments pc_of : simpl never.
Arguments run : simpl never.

(* One statement of thread [t], for runs evaluated by hand. *)
Lemma run_step t k s p :
  pc_of s t = p →
  run (steps t (S k)) s =
  '(e1, s1) ← match p with
              | Idle => None
              | InLoad n l => station_load_train t n l s
              | InWait w => station_wait_for_train t w s
              | InBoard o => station_on_board t o s
              end;
  '(e2, s2) ← run (steps t k) s1; Some (e1 ++ e2, s2).
Proof. intros <-. reflexivity. Qed.

Lemma pass_through_solo t n s0 :
  pc_of s0 t = InLoad n L_seats →
  Z.min (waiting (stn s0)) n ≤ boarding (stn s0) →
  ∃ s1, run (steps t 8) s0
        = Some ([Broadcast t train_arrived; Return t (load_train n)], s1).
Proof.
  intros Ht Hle.
  assert (Hlt : (boarding (stn s0) <?
                 (if waiting (stn s0) <? n then waiting (stn s0) else n))
                = false).
  { apply Z.ltb_ge. destruct (Z.ltb_spec (waiting (stn s0)) n); lia. }
  rewrite (run_step _ _ _ _ Ht). simpl.
  do 2 (erewrite run_step by apply pc_of_goto_eq; simpl).
  erewrite run_step by apply pc_of_goto_eq. simpl. rewrite Hlt. simpl.
  do 4 (erewrite run_step by apply pc_of_goto_eq; simpl).
  eexists. reflexivity.
Qed.

Lemma steps_no_call t k : Forall (no_call t) (steps t k).
Proof. unfold steps. induction k; simpl; constructor; done. Qed.

Lemma last_steps t k : last (steps t (S k)) = Some (Step t).
Proof. unfold steps. induction k; [reflexivity|]. exact IHk. Qed.

Lemma events_of_pass t n :
  events_of t [Broadcast t train_arrived; Return t (load_train n)]
  = [Broadcast t train_arrived; Return t (load_train n)].
Proof. apply events_of_own. repeat constructor. Qed.

Lemma pass_inv_not_suspended t n st0 e s :
  pass_inv t n st0 e s → ¬ suspended (pc_of s t).
Proof.
  unfold pass_inv, suspended.
  destruct (pc_of s t) as [|m []|[]|[]]; intros HP [k Hk];
    try tauto; destruct Hk as [Hk|[Hk|Hk]]; discriminate.
Qed.

(* The whole call, run without interruption. *)
Lemma pass_through_alone t n s0 :
  mutex_inv s0 → pc_of s0 t = InLoad n L_seats →
  Z.min (waiting (stn s0)) n ≤ boarding (stn s0) →
  ∃ s1, run (steps t 8) s0
        = Some ([Broadcast t train_arrived; Return t (load_train n)], s1) ∧
        pc_of s1 t = Idle ∧ waiting (stn s1) = waiting (stn s0) ∧
        seats_available (stn s1) = 0 ∧ people_to_sit (stn s1) = 0 ∧
        ∀ t', blocked (pc_of s0 t') → blocked (pc_of s1 t').
Proof.
  intros Hi Ht Hle. destruct (pass_through_solo t n s0 Ht Hle) as [s1 H1].
  exists s1. split; [exact H1|].
  destruct (pass_through_any t n s0 _ _ _ Hi Ht Hle (steps_no_call t 8) H1)
    as [[HP _]|[Hidle Hpost]].
  - exfalso. rewrite events_of_pass in HP. unfold pass_inv in HP.
    destruct (pc_of s1 t) as [|m []|[]|[]]; try tauto;
      destruct HP as (_ & _ & HP); try tauto; destruct HP as [HP _];
      discriminate.
  - destruct (Hpost (last_steps t 7)) as [(_ & ? & ? & ?) ?]. done.
Qed.

Lemma run_invariant (I : state → Prop) (ok : action → Prop) :
  (∀ a s evs s', I s → ok a → step a s = Some (evs, s') → I s') →
  ∀ acts s evs s',
    I s → Forall ok acts → run acts s = Some (evs, s') → I s'.
Proof.
  intros Hstep. induction acts as [|a acts IH]; intros s evs s' Hs Hok H.
  - by injection H as _ <-.
  - rewrite run_cons in H.
    destruct (step a s) as [[e1 s1]|] eqn:E1; simpl in H; [|discriminate].
    destruct (run acts s1) as [[e2 s2]|] eqn:E2; simpl in H; [|discriminate].
    injection H as _ <-. inversion Hok as [|? ? Ha Hacts]; subst. eauto.
Qed.

Lemma wake_in_wait_loop c p : in_wait_loop p → in_wait_loop (wake c p).
Proof.
  intros [->|[->|H]]; [destruct c; left; reflexivity
                      |destruct c; right; left; reflexivity|].
  right; right. by apply wake_blocked.
Qed.

(* Without a train nobody leaves the loop of wait_for_train. *)
Lemma step_no_train_inv B a s evs s' :
  no_train_inv B s → no_train a → step a s = Some (evs, s') →
  no_train_inv B s'.
Proof.
  unfold no_train_inv, in_wait_loop, blocked.
  intros (Hs & Hl & Hd & HB) Hnt H. step_cases H.
  all: try (exfalso; exact Hnt).
  all: try (exfalso; eapply Hl; eassumption).
  all: try (exfalso; eapply Hd; eassumption).
  all: try (rewrite Z.eqb_neq in *; simpl in *; congruence).
  all: split; [simpl; first [exact Hs | lia]|].
  all: split; [intros t' m l'; pcs; case_decide; subst; try discriminate;
               first [apply Hl | intros Hw; apply wake_InLoad in Hw as [? Hw];
                                 eapply Hl; eassumption]|].
  all: split; [intros t'; pcs; case_decide; subst; try discriminate;
               first [apply Hd | intros Hw; apply wake_dec_seats in Hw;
                                 eapply Hd; eassumption]|].
  all: intros t' Ht'; specialize (HB t' Ht'); pcs; case_decide; subst;
       rewrite ?Hpc in HB; try (apply wake_in_wait_loop; exact HB);
       try exact HB; intuition (try discriminate; auto).
Qed.

Lemma step_claim_inv a s evs s' :
  mutex_inv s →
  (∀ t, pc_of s t = InWait W_dec_seats → seats_available (stn s) ≠ 0) →
  step a s = Some (evs, s') →
  (∀ t, pc_of s' t = InWait W_dec_seats → seats_available (stn s') ≠ 0).
Proof.
  intros Hi Hk H. pose proof (λ t, exclusion s t (actor a) Hi) as Hexcl.
  step_cases H; simpl in Hexcl.
  all: intros t'; pcs; case_decide; subst; try discriminate.
  all: try (intros _; lia).
  all: try (apply Hk).
  all: try (intros Hw; apply wake_dec_seats in Hw; revert Hw; apply Hk).
  all: intros Ht'; exfalso;
       match goal with Hne : _ ≠ _ |- _ => apply Hne end;
       symmetry; apply Hexcl; rewrite ?Hpc, ?Ht'; reflexivity.
Qed.

Lemma reachable_claim s t :
  reachable s → pc_of s t = InWait W_dec_seats → seats_available (stn s) ≠ 0.
Proof.
  intros (acts & evs & H). revert t.
  apply (run_invariant
           (λ s, mutex_inv s ∧
                 ∀ t, pc_of s t = InWait W_dec_seats
                      → seats_available (stn s) ≠ 0)
           (λ _, True)) in H.
  - tauto.
  - intros a s1 e s2 [Hi Hk] _ Hs.
    eauto using step_mutex_inv, step_claim_inv.
  - split; [apply initial_mutex_inv | intros t; discriminate].
  - apply Forall_true. done.
Qed.

Lemma run_sole_controller t acts s evs s' :
  sole_controller t s → Forall no_train acts → run acts s = Some (evs, s') →
  sole_controller t s'.
Proof.
  intros Hs Hnt H.
  apply (run_invariant (sole_controller t) no_train) in H; try done.
  intros a s1 e s2. apply step_sole_controller.
Qed.

(** C6. Let thread [t] have just taken the mutex in [load_train 0], in a
    state [s0] reached from the initialized station.  Run alone, the call
    returns after its eight remaining statements, the loop test of line 41
    being false.  However the threads are scheduled, the call never is
    inside [pthread_cond_wait]; until it has returned [waiting] is what it
    was in [s0] and every passenger that was inside the
    [pthread_cond_wait] of [wait_for_train] still is; when it returns
    [seats_available] is 0; and if [t] is the only controller, such a
    passenger stays in the loop of [wait_for_train] for as long as no other
    train is announced. *)
Theorem load_train_zero t s0 :
  reachable s0 → pc_of s0 t = InLoad 0 L_seats →
  (∃ s1, run (steps t 8) s0
         = Some ([Broadcast t train_arrived; Return t (load_train 0)], s1) ∧
         pc_of s1 t = Idle ∧ waiting (stn s1) = waiting (stn s0) ∧
         seats_available (stn s1) = 0 ∧
         ∀ t', blocked (pc_of s0 t') → blocked (pc_of s1 t')) ∧
  (∀ acts evs s,
     Forall (no_call t) acts → run acts s0 = Some (evs, s) →
     ¬ suspended (pc_of s t) ∧
     (pc_of s t ≠ Idle ∨ last acts = Some (Step t) →
      waiting (stn s) = waiting (stn s0) ∧
      ∀ t', blocked (pc_of s0 t') → blocked (pc_of s t')) ∧
     (pc_of s t = Idle → last acts = Some (Step t) →
      seats_available (stn s) = 0 ∧
      events_of t evs = [Broadcast t train_arrived; Return t (load_train 0)])) ∧
  (sole_controller t s0 →
   ∀ acts1 evs1 s1 acts2 evs2 s2,
     Forall (no_call t) acts1 → Forall no_train acts1 →
     run (acts1 ++ [Step t]) s0 = Some (evs1, s1) → pc_of s1 t = Idle →
     Forall no_train acts2 → run acts2 s1 = Some (evs2, s2) →
     seats_available (stn s2) = 0 ∧
     ∀ t', blocked (pc_of s0 t') → in_wait_loop (pc_of s2 t')).
Proof.
  intros Hr Ht. pose proof (reachable_mutex_inv s0 Hr) as Hi.
  assert (Hle : Z.min (waiting (stn s0)) 0 ≤ boarding (stn s0))
    by (pose proof (inv_boarding s0 Hi); lia).
  assert (Hany : ∀ acts evs s,
     Forall (no_call t) acts → run acts s0 = Some (evs, s) →
     ¬ suspended (pc_of s t) ∧
     (pc_of s t ≠ Idle ∨ last acts = Some (Step t) →
      waiting (stn s) = waiting (stn s0) ∧
      ∀ t', blocked (pc_of s0 t') → blocked (pc_of s t')) ∧
     (pc_of s t = Idle → last acts = Some (Step t) →
      seats_available (stn s) = 0 ∧
      events_of t evs = [Broadcast t train_arrived; Return t (load_train 0)])).
  { intros acts evs s Hnc H.
    destruct (pass_through_any t 0 s0 _ _ _ Hi Ht Hle Hnc H)
      as [[HP Hb]|[Hidle Hpost]].
    + split; [eapply pass_inv_not_suspended, HP|].
      pose proof HP as HP'. unfold pass_inv in HP'.
      destruct (pc_of s t) as [|m l| |] eqn:Hs; try tauto. split.
      * intros _. split; [tauto|exact Hb].
      * intros [=].
    + split.
      { rewrite Hidle. intros [k [?|[?|?]]]; discriminate. }
      split.
      * intros [?|Hl]; [done|].
        destruct (Hpost Hl) as [(_ & ? & _) ?]. done.
      * intros _ Hl. destruct (Hpost Hl) as [(? & _ & ? & _) _]. done. }
  split; [|split; [exact Hany|]].
  - destruct (pass_through_alone t 0 s0 Hi Ht Hle)
      as (s1 & ? & ? & ? & ? & ? & ?). exists s1. done.
  - intros Hsole acts1 evs1 s1 acts2 evs2 s2 Hnc1 Hnt1 H1 Hidle Hnt2 H2.
    assert (Hnc : Forall (no_call t) (acts1 ++ [Step t]))
      by (apply Forall_app; split; [done | by repeat constructor]).
    assert (Hnt : Forall no_train (acts1 ++ [Step t]))
      by (apply Forall_app; split; [done | by repeat constructor]).
    assert (Hl : last (acts1 ++ [Step t]) = Some (Step t))
      by apply last_snoc.
    destruct (Hany _ _ _ Hnc H1) as (_ & Hin & Hret).
    destruct (Hin (or_intror Hl)) as [_ Hb].
    destruct (Hret Hidle Hl) as [Hseats _].
    pose proof (run_sole_controller _ _ _ _ _ Hsole Hnt H1) as Hsole1.
    assert (HI : no_train_inv (λ t', blocked (pc_of s0 t')) s1).
    { split; [exact Hseats|]. split; [|split].
      - intros t' m l Ht'. pose proof (Hsole1 _ _ _ Ht'); subst.
        rewrite Hidle in Ht'. discriminate.
      - intros t' Ht'.
        apply (reachable_claim s1 t' (reachable_run _ _ _ _ Hr H1) Ht' Hseats).
      - intros t' Ht'. right; right. auto. }
    apply (run_invariant (no_train_inv (λ t', blocked (pc_of s0 t'))) no_train
             (step_no_train_inv _)) in H2; [|done..].
    destruct H2 as (? & _ & _ & ?). done.
Qed.

Lemma load_train_zero_witness :
  let s0 := state_after (arrive 1 ++ [Call 0 (load_train 0); Step 0]) initial in
  let s := state_after (steps 0 2 ++ [Spurious 1; Call 2 on_board] ++ steps 0 6) s0 in
  pc_of s0 1 = InWait W_sleep ∧
  ¬ suspended (pc_of s 0) ∧ waiting (stn s) = waiting (stn s0) ∧
  blocked (pc_of s 1) ∧ seats_available (stn s) = 0.
Proof.
  intros s0 s.
  assert (Hr : reachable s0).
  { exists (arrive 1 ++ [Call 0 (load_train 0); Step 0]),
           [Invoke 1 wait_for_train; Invoke 0 (load_train 0)].
    vm_compute. reflexivity. }
  assert (H0 : pc_of s0 0 = InLoad 0 L_seats) by (vm_compute; reflexivity).
  assert (H1 : pc_of s0 1 = InWait W_sleep) by (vm_compute; reflexivity).
  destruct (load_train_zero 0 s0 Hr H0) as (_ & Hall & _).
  set (acts := steps 0 2 ++ [Spurious 1; Call 2 on_board] ++ steps 0 6).
  assert (Hrun : run acts s0 = Some (events_after acts s0, s))
    by (vm_compute; reflexivity).
  assert (Hnc : Forall (no_call 0) acts) by (subst acts; check_schedule).
  destruct (Hall _ _ _ Hnc Hrun) as (Hns & Hin & Hret).
  assert (Hl : last acts = Some (Step 0)) by reflexivity.
  assert (Hidle : pc_of s 0 = Idle) by (vm_compute; reflexivity).
  destruct (Hin (or_intror Hl)) as [Hw Hb].
  destruct (Hret Hidle Hl) as [Hseats _].
  split; [exact H1|]. split; [exact Hns|]. split; [exact Hw|].
  split; [apply Hb; left; exact H1 | exact Hseats].
Defined.

(** C7. Let thread [t] have just taken the mutex in [load_train n], with
    [0 ≤ n], in a state [s0] reached from the initialized station in which
    [waiting] is 0.  Line 35 sets [people_to_sit] to 0.  Run alone, the
    call returns after its eight remaining statements; however the threads
    are scheduled, it never is inside [pthread_cond_wait], and
    [people_to_sit] is 0 at every statement after line 35 and at the
    return. *)
Theorem load_train_nobody_waiting t n s0 :
  reachable s0 → pc_of s0 t = InLoad n L_seats →
  0 ≤ n → waiting (stn s0) = 0 →
  (∃ s2, run (steps t 2) s0 = Some ([], s2) ∧
         pc_of s2 t = InLoad n L_bcast ∧ people_to_sit (stn s2) = 0) ∧
  (∃ s1, run (steps t 8) s0
         = Some ([Broadcast t train_arrived; Return t (load_train n)], s1) ∧
         pc_of s1 t = Idle ∧ people_to_sit (stn s1) = 0) ∧
  ∀ acts evs s,
    Forall (no_call t) acts → run acts s0 = Some (evs, s) →
    ¬ suspended (pc_of s t) ∧
    (∀ m l, pc_of s t = InLoad m l → l ≠ L_seats → l ≠ L_quota →
            people_to_sit (stn s) = 0) ∧
    (pc_of s t = Idle → last acts = Some (Step t) →
     people_to_sit (stn s) = 0 ∧
     events_of t evs = [Broadcast t train_arrived; Return t (load_train n)]).
Proof.
  intros Hr Ht Hn Hw. pose proof (reachable_mutex_inv s0 Hr) as Hi.
  assert (Hmin : Z.min (waiting (stn s0)) n = 0) by lia.
  assert (Hle : Z.min (waiting (stn s0)) n ≤ boarding (stn s0))
    by (pose proof (inv_boarding s0 Hi); lia).
  split; [|split].
  - rewrite (run_step _ _ _ _ Ht). simpl.
    erewrite run_step by apply pc_of_goto_eq. simpl.
    eexists. split; [reflexivity|]. split; [apply pc_of_goto_eq|]. simpl.
    rewrite Hw. destruct (Z.ltb_spec 0 n); lia.
  - destruct (pass_through_alone t n s0 Hi Ht Hle)
      as (s1 & ? & ? & ? & ? & ? & ?). exists s1. done.
  - intros acts evs s Hnc H.
    destruct (pass_through_any t n s0 _ _ _ Hi Ht Hle Hnc H)
      as [[HP Hb]|[Hidle Hpost]].
    + split; [eapply pass_inv_not_suspended, HP|].
      unfold pass_inv in HP. rewrite Hmin in HP. split.
      * intros m l Hs. rewrite Hs in HP. destruct l; tauto.
      * intros Hs. rewrite Hs in HP. tauto.
    + split.
      { rewrite Hidle. intros [k [?|[?|?]]]; discriminate. }
      split.
      * intros m l Hs. rewrite Hs in Hidle. discriminate.
      * intros _ Hl. destruct (Hpost Hl) as [(? & _ & _ & ?) _]. done.
Qed.

Lemma load_train_nobody_waiting_witness :
  let s0 := state_after [Call 0 (load_train 4); Step 0] initial in
  let s := state_after (steps 0 2 ++ [Call 1 wait_for_train] ++ steps 0 2) s0 in
  waiting (stn s0) = 0 ∧ pc_of s 0 = InLoad 4 L_reset_boarding ∧
  ¬ suspended (pc_of s 0) ∧ people_to_sit (stn s) = 0.
Proof.
  intros s0 s.
  assert (Hr : reachable s0).
  { exists [Call 0 (load_train 4); Step 0], [Invoke 0 (load_train 4)].
    vm_compute. reflexivity. }
  assert (H0 : pc_of s0 0 = InLoad 4 L_seats) by (vm_compute; reflexivity).
  assert (Hn : 0 ≤ 4) by lia.
  assert (Hw : waiting (stn s0) = 0) by (vm_compute; reflexivity).
  destruct (load_train_nobody_waiting 0 4 s0 Hr H0 Hn Hw) as (_ & _ & Hall).
  set (acts := steps 0 2 ++ [Call 1 wait_for_train] ++ steps 0 2).
  assert (Hrun : run acts s0 = Some (events_after acts s0, s))
    by (vm_compute; reflexivity).
  assert (Hnc : Forall (no_call 0) acts) by (subst acts; check_schedule).
  destruct (Hall _ _ _ Hnc Hrun) as (Hns & Hin & _).
  assert (Hs : pc_of s 0 = InLoad 4 L_reset_boarding)
    by (vm_compute; reflexivity).
  split; [exact Hw|]. split; [exact Hs|]. split; [exact Hns|].
  apply (Hin _ _ Hs); discriminate.
Defined.

(** * on_board *)

Lemma board_inv_locked t st0 e s :
  board_inv t st0 e s → holds_lock (pc_of s t) = true.
Proof.
  unfold board_inv. destruct (pc_of s t) as [|m []|[]|[]]; simpl; tauto.
Qed.

Lemma board_inv_frame t st0 e s s' :
  board_inv t st0 e s → stn s' = stn s → pc_of s' t = pc_of s t →
  board_inv t st0 e s'.
Proof. unfold board_inv. intros H -> ->. exact H. Qed.

Lemma board_inv_step t st0 e s e1 s' :
  board_inv t st0 e s → step (Step t) s = Some (e1, s') →
  board_inv t st0 (e ++ e1) s'
  ∨ (pc_of s' t = Idle ∧ board_post t st0 (e ++ e1) s').
Proof.
  unfold board_inv, board_post, board_events. intros HP H. simpl in H.
  destruct (pc_of s t) as [|m []|[]|[]] eqn:Hpc; try tauto;
    simpl in H; unfold_stmt H; injection H as <- <-;
    rewrite pc_of_goto_eq; simpl;
    destruct HP as (Hw & Hs & Hp & HP).
  - left. destruct HP as [-> ->]. done.
  - left. destruct HP as [-> Hb]. apply Z.eqb_eq in Heqb.
    repeat split; try done. congruence.
  - left. destruct HP as [-> Hb]. apply Z.eqb_neq in Heqb.
    destruct (Z.eqb_spec (boarding st0 + 1) (people_to_sit st0)); [|done].
    congruence.
  - left. destruct HP as (-> & Hb & Hq). apply Z.eqb_eq in Hq.
    rewrite Hq. done.
  - right. destruct HP as [He Hb]. done.
Qed.

Lemma board_any t s0 acts evs s :
  mutex_inv s0 → pc_of s0 t = InBoard O_inc →
  Forall (no_call t) acts → run acts s0 = Some (evs, s) →
  (board_inv t (stn s0) (events_of t evs) s
   ∧ ∀ t', blocked (pc_of s0 t') → blocked (pc_of s t'))
  ∨ (pc_of s t = Idle
     ∧ (last acts = Some (Step t) →
        board_post t (stn s0) (events_of t evs) s
        ∧ ∀ t', blocked (pc_of s0 t') → blocked (pc_of s t'))).
Proof.
  intros Hi Ht Hnc H.
  apply (atomic_run t (board_inv t (stn s0)) (board_post t (stn s0))
           (board_inv_locked t (stn s0)) (board_inv_frame t (stn s0))
           (λ e s e1 s' _, board_inv_step t (stn s0) e s e1 s')
           acts [] s0 evs s Hi); [|done..].
  unfold board_inv. rewrite Ht. done.
Qed.

(* The critical section of on_board, run without interruption. *)
Lemma board_solo t s0 :
  pc_of s0 t = InBoard O_inc → boarding (stn s0) < INT_MAX →
  ∃ k s1, run (steps t (S k)) s0 = Some (board_events t (stn s0), s1).
Proof.
  intros Ht Hlt. unfold board_events.
  assert (Hinc : incr (boarding (stn s0)) = Some (boarding (stn s0) + 1)).
  { unfold incr. by apply Z.ltb_lt in Hlt as ->. }
  destruct (boarding (stn s0) + 1 =? people_to_sit (stn s0)) eqn:E.
  - exists 3%nat. rewrite (run_step _ _ _ _ Ht). simpl. rewrite Hinc. simpl.
    erewrite run_step by apply pc_of_goto_eq. simpl. rewrite E. simpl.
    do 2 (erewrite run_step by apply pc_of_goto_eq; simpl).
    eexists. reflexivity.
  - exists 2%nat. rewrite (run_step _ _ _ _ Ht). simpl. rewrite Hinc. simpl.
    erewrite run_step by apply pc_of_goto_eq. simpl. rewrite E. simpl.
    erewrite run_step by apply pc_of_goto_eq; simpl.
    eexists. reflexivity.
Qed.

Lemma in_events_of t e evs :
  In e (events_of t evs) ↔ event_actor e = t ∧ In e evs.
Proof.
  unfold events_of. induction evs as [|e' evs IH]; simpl; [tauto|].
  destruct (decide (event_actor e' = t)) as [Heq|Hne].
  - rewrite filter_cons_True by done. simpl. rewrite IH.
    split; [intros [->|[? ?]]; auto | intros [? [?|?]]; auto].
  - rewrite filter_cons_False by done. rewrite IH.
    split; [intros [? ?]; auto | intros [? [->|?]]; [done|auto]].
Qed.

Lemma events_of_board t st0 :
  events_of t (board_events t st0) = board_events t st0.
Proof.
  apply events_of_own. unfold board_events.
  destruct (_ =? _); repeat constructor.
Qed.

Lemma board_alone t s0 :
  mutex_inv s0 → pc_of s0 t = InBoard O_inc → boarding (stn s0) < INT_MAX →
  ∃ k s1, run (steps t (S k)) s0 = Some (board_events t (stn s0), s1) ∧
          pc_of s1 t = Idle ∧ board_post t (stn s0) (board_events t (stn s0)) s1.
Proof.
  intros Hi Ht Hlt. destruct (board_solo t s0 Ht Hlt) as (k & s1 & H1).
  exists k, s1. split; [exact H1|].
  destruct (board_any t s0 _ _ _ Hi Ht (steps_no_call t (S k)) H1)
    as [[HP _]|[Hidle Hpost]].
  - exfalso. rewrite events_of_board in HP. unfold board_inv in HP.
    destruct (pc_of s1 t) as [|m []|[]|[]]; try tauto;
      destruct HP as (_ & _ & _ & HP); try tauto; destruct HP as [HP _];
      revert HP; unfold board_events; destruct (_ =? _); try discriminate;
      intros HP; apply (f_equal length) in HP; simpl in HP; lia.
  - destruct (Hpost (last_steps t k)) as [HQ _].
    rewrite events_of_board in HQ. done.
Qed.

(* Critical sections again, for properties that also read the other
   threads of the pool. *)
Section atomic_pool.
Variable t : tid.
Variables P Q : list event → state → Prop.
Hypothesis P_locked : ∀ e s, P e s → holds_lock (pc_of s t) = true.
Hypothesis P_other : ∀ e a s e1 s',
  mutex_inv s → P e s → actor a ≠ t → step a s = Some (e1, s') → P e s'.
Hypothesis P_step : ∀ e s e1 s',
  mutex_inv s → P e s → step (Step t) s = Some (e1, s') →
  P (e ++ e1) s' ∨ (pc_of s' t = Idle ∧ Q (e ++ e1) s').

Lemma atomic_pool_run acts : ∀ e s evs s',
  mutex_inv s → P e s → Forall (no_call t) acts →
  run acts s = Some (evs, s') →
  P (e ++ events_of t evs) s'
  ∨ (pc_of s' t = Idle
     ∧ (last acts = Some (Step t) → Q (e ++ events_of t evs) s')).
Proof.
  induction acts as [|a acts IH]; intros e s evs s' Hi HP Hnc H.
  - injection H as <- <-. left. rewrite app_nil_r. done.
  - rewrite run_cons in H.
    destruct (step a s) as [[e1 s1]|] eqn:E1; simpl in H; [|discriminate].
    destruct (run acts s1) as [[e2 s2]|] eqn:E2; simpl in H; [|discriminate].
    injection H as <- <-. inversion Hnc as [|? ? Ha Hacts]; subst.
    pose proof (P_locked _ _ HP) as Hl.
    pose proof (step_mutex_inv _ _ _ _ Hi E1) as Hi1.
    rewrite events_of_app.
    destruct (decide (actor a = t)) as [Heq|Hne].
    + assert (a = Step t) as ->.
      { destruct a as [t1 c|t1|t1]; simpl in *; subst; [done|done|].
        destruct (pc_of s t) as [|n []|[]|[]]; discriminate. }
      rewrite (events_of_own t e1) by apply (step_events_actor _ _ _ _ E1).
      rewrite app_assoc.
      destruct (P_step _ _ _ _ Hi HP E1) as [HP1|[Hidle HQ]].
      * destruct (IH _ _ _ _ Hi1 HP1 Hacts E2) as [?|[? Hlast]].
        -- left. done.
        -- right. split; [done|]. destruct acts as [|a' acts].
           ++ rewrite run_cons in E2 || injection E2 as <- <-.
              apply P_locked in HP1. rewrite H in HP1. discriminate.
           ++ exact Hlast.
      * destruct (idle_run _ _ _ _ _ Hidle Hacts E2) as (? & -> & Hlast).
        right. split; [done|]. destruct acts as [|a' acts].
        -- injection E2 as _ <-. intros _. rewrite app_nil_r. done.
        -- intros Hl'. done.
    + rewrite (step_events_other _ _ _ _ _ Hne E1). simpl.
      destruct (IH _ _ _ _ Hi1 (P_other _ _ _ _ _ Hi HP Hne E1) Hacts E2)
        as [?|[? Hlast]].
      * left. done.
      * right. split; [done|]. destruct acts as [|a' acts].
        -- injection E2 as <- <-.
           destruct (other_step_frame _ _ _ _ _ Hi Hl Hne E1) as (_ & Hpc & _).
           rewrite <- Hpc, H in Hl. discriminate.
        -- exact Hlast.
Qed.
End atomic_pool.

(* While [t] owns the mutex the other threads can be woken up, but none of
   them can fall asleep. *)
Lemma other_step_sleepers t a s evs s' :
  mutex_inv s → holds_lock (pc_of s t) = true → actor a ≠ t →
  step a s = Some (evs, s') →
  (∀ t' n, pc_of s t' = InLoad n L_sleep →
           pc_of s' t' = InLoad n L_sleep ∨ pc_of s' t' = InLoad n L_wake) ∧
  (∀ t' n, pc_of s t' = InLoad n L_wake → pc_of s' t' = InLoad n L_wake) ∧
  (∀ t' n, pc_of s' t' = InLoad n L_sleep → pc_of s t' = InLoad n L_sleep).
Proof.
  intros Hi Ht Hne H.
  pose proof (exclusion s t (actor a) Hi Ht) as Hexcl.
  pose proof (inv_mutex s Hi t Ht) as Hown.
  step_cases H; simpl in Hexcl, Hne.
  all: try (exfalso; apply Hne; symmetry; apply Hexcl; rewrite Hpc; reflexivity).
  all: try congruence.
  all: repeat split; intros t' m; pcs; case_decide; subst;
       rewrite ?Hpc; try discriminate; auto.
  all: intros [= ->]; auto.
Qed.

Lemma sleepers_kept_refl s : sleepers_kept s s.
Proof. split; auto. Qed.

Lemma sleepers_kept_other t a s0 s evs s' :
  mutex_inv s → holds_lock (pc_of s t) = true → actor a ≠ t →
  step a s = Some (evs, s') → sleepers_kept s0 s → sleepers_kept s0 s'.
Proof.
  intros Hi Ht Hne H [Hk Hn].
  destruct (other_step_sleepers t a s evs s' Hi Ht Hne H) as (Hs & Hw & Hb).
  split.
  - intros t' n H0. destruct (Hk t' n H0) as [?|?]; [auto|right; auto].
  - intros t' n H'. auto.
Qed.

Lemma board_pool_inv_other t s0 e a s e1 s' :
  mutex_inv s → board_pool_inv t s0 e s → actor a ≠ t →
  step a s = Some (e1, s') → board_pool_inv t s0 e s'.
Proof.
  intros Hi (HP & Hk & Hw) Hne H.
  pose proof (board_inv_locked _ _ _ _ HP) as Hl.
  destruct (other_step_frame _ _ _ _ _ Hi Hl Hne H) as (Hst & Hpc & _).
  split; [eapply board_inv_frame; eauto|].
  split; [eapply sleepers_kept_other; eauto|].
  rewrite Hpc. intros Hu Heq t' n Ht'.
  destruct (other_step_sleepers t a s e1 s' Hi Hl Hne H) as (_ & _ & Hb).
  exact (Hw Hu Heq t' n (Hb _ _ Ht')).
Qed.

Lemma wake_all_boarded_up p n : wake all_boarded p ≠ InLoad n L_sleep.
Proof. destruct p as [|m []|[]|[]]; discriminate. Qed.

Lemma sleepers_kept_goto t p s0 s s' :
  holds_lock (pc_of s t) = true →
  (∀ t', pc_of s' t' = if decide (t = t') then p else pc_of s t') →
  (∀ n, p ≠ InLoad n L_sleep) →
  sleepers_kept s0 s →
  sleepers_kept s0 s' ∧ (all_awake s → all_awake s').
Proof.
  intros Hl Hs' Hp [Hk Hn]. split; [split|].
  - intros t' n H0. rewrite Hs'. destruct (Hk t' n H0) as [H'|H'];
      rewrite decide_False by (intros ->; rewrite H' in Hl; discriminate);
      rewrite H'; auto.
  - intros t' n. rewrite Hs'. case_decide; [intros H'; destruct (Hp _ H')|].
    apply Hn.
  - intros Ha t' n. rewrite Hs'. case_decide; [apply Hp | apply Ha].
Qed.

Lemma sleepers_kept_bcast t p s0 s s' :
  holds_lock (pc_of s t) = true →
  (∀ t', pc_of s' t' =
         if decide (t = t') then p else wake all_boarded (pc_of s t')) →
  (∀ n, p ≠ InLoad n L_sleep) →
  sleepers_kept s0 s →
  sleepers_kept s0 s' ∧ all_awake s'.
Proof.
  intros Hl Hs' Hp [Hk Hn]. split; [split|].
  - intros t' n H0. rewrite Hs'. destruct (Hk t' n H0) as [H'|H'];
      rewrite decide_False by (intros ->; rewrite H' in Hl; discriminate);
      rewrite H'; right; reflexivity.
  - intros t' n. rewrite Hs'. case_decide; [intros H'; destruct (Hp _ H')|].
    intros H'. destruct (wake_all_boarded_up _ _ H').
  - intros t' n. rewrite Hs'. case_decide; [apply Hp|].
    apply wake_all_boarded_up.
Qed.

Lemma board_pool_inv_step t s0 e s e1 s' :
  board_pool_inv t s0 e s → step (Step t) s = Some (e1, s') →
  board_pool_inv t s0 (e ++ e1) s'
  ∨ (pc_of s' t = Idle ∧ board_pool_post t s0 (e ++ e1) s').
Proof.
  intros (HP & Hk & Hw) H.
  pose proof (board_inv_locked _ _ _ _ HP) as Hl.
  pose proof (board_inv_step _ _ _ _ _ _ HP H) as Hstep.
  unfold board_inv in HP. simpl in H.
  destruct (pc_of s t) as [|m l|w|[]] eqn:Hpc; try tauto;
    try discriminate Hl; simpl in H; unfold_stmt H; injection H as <- <-;
    destruct HP as (_ & _ & Hq & HP).
  - (* line 83 *)
    destruct Hstep as [HP'|[Hidle _]];
      [|rewrite pc_of_goto_eq in Hidle; discriminate].
    left. split; [exact HP'|].
    destruct (sleepers_kept_goto t (InBoard O_test) s0 s
                (goto t (InBoard O_test)
                   (set_boarding (boarding (stn s) + 1) s)))
      as [Hk' _]; try done.
    { by rewrite Hpc. } { intros t'. pcs. reflexivity. }
    split; [exact Hk'|]. rewrite pc_of_goto_eq. discriminate.
  - (* line 86, equal *)
    destruct Hstep as [HP'|[Hidle _]];
      [|rewrite pc_of_goto_eq in Hidle; discriminate].
    left. split; [exact HP'|].
    destruct (sleepers_kept_goto t (InBoard O_bcast) s0 s
                (goto t (InBoard O_bcast) s)) as [Hk' _]; try done.
    { by rewrite Hpc. } { intros t'. pcs. reflexivity. }
    split; [exact Hk'|]. rewrite pc_of_goto_eq. discriminate.
  - (* line 86, different *)
    destruct Hstep as [HP'|[Hidle _]];
      [|rewrite pc_of_goto_eq in Hidle; discriminate].
    left. split; [exact HP'|].
    destruct (sleepers_kept_goto t (InBoard O_unlock) s0 s
                (goto t (InBoard O_unlock) s)) as [Hk' _]; try done.
    { by rewrite Hpc. } { intros t'. pcs. reflexivity. }
    split; [exact Hk'|]. intros _ Heq. exfalso.
    apply Z.eqb_neq in Heqb. destruct HP as [_ Hb]. lia.
  - (* line 89 *)
    destruct Hstep as [HP'|[Hidle _]];
      [|rewrite pc_of_goto_eq in Hidle; discriminate].
    left. split; [exact HP'|].
    destruct (sleepers_kept_bcast t (InBoard O_unlock) s0 s
                (goto t (InBoard O_unlock)
                   (pthread_cond_broadcast all_boarded s)))
      as [Hk' Ha']; try done.
    { by rewrite Hpc. } { intros t'. pcs. reflexivity. }
  - (* line 92 *)
    destruct Hstep as [HP'|[Hidle HQ]].
    { unfold board_inv in HP'. rewrite pc_of_goto_eq in HP'. tauto. }
    right. split; [exact Hidle|]. split; [exact HQ|].
    destruct (sleepers_kept_goto t Idle s0 s
                (goto t Idle (pthread_mutex_unlock s))) as [Hk' Ha']; try done.
    { by rewrite Hpc. } { intros t'. pcs. reflexivity. }
    split; [exact Hk'|]. intros Heq. apply Ha'. exact (Hw eq_refl Heq).
Qed.

Lemma board_pool_any t s0 acts evs s :
  mutex_inv s0 → pc_of s0 t = InBoard O_inc →
  Forall (no_call t) acts → run acts s0 = Some (evs, s) →
  board_pool_inv t s0 (events_of t evs) s
  ∨ (pc_of s t = Idle
     ∧ (last acts = Some (Step t) →
        board_pool_post t s0 (events_of t evs) s)).
Proof.
  intros Hi Ht Hnc H.
  apply (atomic_pool_run t (board_pool_inv t s0) (board_pool_post t s0)
           (λ e s HP, board_inv_locked t (stn s0) e s (proj1 HP))
           (board_pool_inv_other t s0)
           (λ e s e1 s' _, board_pool_inv_step t s0 e s e1 s')
           acts [] s0 evs s Hi); [|done..].
  split; [unfold board_inv; rewrite Ht; done|].
  split; [apply sleepers_kept_refl|]. rewrite Ht. discriminate.
Qed.

(* The critical section of on_board run without interruption, with what it
   does to the other threads. *)
Lemma board_solo_pool t s0 :
  pc_of s0 t = InBoard O_inc → boarding (stn s0) < INT_MAX →
  ∃ k s1, run (steps t (S k)) s0 = Some (board_events t (stn s0), s1) ∧
          ∀ t', t' ≠ t →
                pc_of s1 t' =
                if boarding (stn s0) + 1 =? people_to_sit (stn s0)
                then wake all_boarded (pc_of s0 t') else pc_of s0 t'.
Proof.
  intros Ht Hlt. unfold board_events.
  assert (Hinc : incr (boarding (stn s0)) = Some (boarding (stn s0) + 1)).
  { unfold incr. by apply Z.ltb_lt in Hlt as ->. }
  destruct (boarding (stn s0) + 1 =? people_to_sit (stn s0)) eqn:E.
  - exists 3%nat. rewrite (run_step _ _ _ _ Ht). simpl. rewrite Hinc. simpl.
    erewrite run_step by apply pc_of_goto_eq. simpl. rewrite E. simpl.
    do 2 (erewrite run_step by apply pc_of_goto_eq; simpl).
    eexists. split; [reflexivity|].
    intros t' Hne. pcs. rewrite !decide_False by done. reflexivity.
  - exists 2%nat. rewrite (run_step _ _ _ _ Ht). simpl. rewrite Hinc. simpl.
    erewrite run_step by apply pc_of_goto_eq. simpl. rewrite E. simpl.
    erewrite run_step by apply pc_of_goto_eq; simpl.
    eexists. split; [reflexivity|].
    intros t' Hne. pcs. rewrite !decide_False by done. reflexivity.
Qed.

(** C9. Let thread [t] have just taken the mutex in [on_board], in a state
    [s0] reached from the initialized station.  However the threads are
    scheduled, when the call returns [boarding] is one more than in [s0],
    and the call has broadcast [all_boarded], once, if that incremented
    value is [people_to_sit], and has broadcast nothing otherwise, in
    particular when the incremented value is larger than [people_to_sit].
    The broadcast wakes: when the incremented value is [people_to_sit],
    every thread that was asleep on [all_boarded] in [s0] is awake, waiting
    for the mutex, when the call returns, and no thread at all is asleep on
    [all_boarded] then.  Run alone, the call does return, unless the
    increment overflows; it then leaves every other thread where it was,
    but for the sleepers on [all_boarded], which it has woken if and only if
    the incremented value is [people_to_sit]. *)
Theorem on_board_broadcast t s0 :
  reachable s0 → pc_of s0 t = InBoard O_inc →
  (boarding (stn s0) < INT_MAX →
   ∃ k s1, run (steps t (S k)) s0 = Some (board_events t (stn s0), s1) ∧
           pc_of s1 t = Idle ∧
           boarding (stn s1) = boarding (stn s0) + 1 ∧
           (boarding (stn s0) + 1 = people_to_sit (stn s0) →
            ∀ t' n, pc_of s0 t' = InLoad n L_sleep →
                    pc_of s1 t' = InLoad n L_wake) ∧
           (boarding (stn s0) + 1 ≠ people_to_sit (stn s0) →
            ∀ t', t' ≠ t → pc_of s1 t' = pc_of s0 t') ∧
           (∀ t', t' ≠ t → (∀ n, pc_of s0 t' ≠ InLoad n L_sleep) →
                  pc_of s1 t' = pc_of s0 t')) ∧
  ∀ acts evs s,
    Forall (no_call t) acts → run acts s0 = Some (evs, s) →
    pc_of s t = Idle → last acts = Some (Step t) →
    boarding (stn s) = boarding (stn s0) + 1 ∧
    events_of t evs =
      (if boarding (stn s0) + 1 =? people_to_sit (stn s0)
       then [Broadcast t all_boarded; Return t on_board]
       else [Return t on_board]) ∧
    (In (Broadcast t all_boarded) evs
     ↔ boarding (stn s0) + 1 = people_to_sit (stn s0)) ∧
    (people_to_sit (stn s0) < boarding (stn s0) + 1 →
     ∀ c, ¬ In (Broadcast t c) evs) ∧
    (boarding (stn s0) + 1 = people_to_sit (stn s0) →
     (∀ t' n, pc_of s0 t' = InLoad n L_sleep →
              pc_of s t' = InLoad n L_wake) ∧
     (∀ t' n, pc_of s t' ≠ InLoad n L_sleep)).
Proof.
  intros Hr Ht. pose proof (reachable_mutex_inv s0 Hr) as Hi. split.
  - intros Hlt. destruct (board_solo_pool t s0 Ht Hlt) as (k & s1 & H1 & Hpool).
    exists k, s1. split; [exact H1|].
    destruct (board_any t s0 _ _ _ Hi Ht (steps_no_call t (S k)) H1)
      as [[HP _]|[Hidle Hpost]].
    { exfalso. rewrite events_of_board in HP. unfold board_inv in HP.
      destruct (pc_of s1 t) as [|m []|[]|[]]; try tauto;
        destruct HP as (_ & _ & _ & HP); try tauto; destruct HP as [HP _];
        revert HP; unfold board_events; destruct (_ =? _); try discriminate;
        intros HP; apply (f_equal length) in HP; simpl in HP; lia. }
    destruct (Hpost (last_steps t k)) as [(_ & _ & _ & _ & Hb) _].
    split; [exact Hidle|]. split; [exact Hb|].
    assert (Hnt : ∀ t' n, pc_of s0 t' = InLoad n L_sleep → t' ≠ t).
    { intros t' n H' ->. rewrite H' in Ht. discriminate. }
    split; [|split].
    + intros Heq t' n H0. rewrite (Hpool t' (Hnt _ _ H0)).
      apply Z.eqb_eq in Heq. rewrite Heq, H0. reflexivity.
    + intros Hneq t' Hne'. rewrite (Hpool t' Hne').
      apply Z.eqb_neq in Hneq. rewrite Hneq. reflexivity.
    + intros t' Hne' Hns. rewrite (Hpool t' Hne').
      destruct (_ =? _); [|reflexivity].
      destruct (pc_of s0 t') as [|m []|[]|[]] eqn:E; try reflexivity.
      destruct (Hns m eq_refl).
  - intros acts evs s Hnc H Hidle Hl.
    destruct (board_pool_any t s0 _ _ _ Hi Ht Hnc H) as [(HP & _)|[_ Hpost]].
    { apply board_inv_locked in HP. rewrite Hidle in HP. discriminate. }
    destruct (Hpost Hl) as ((He & _ & _ & _ & Hb) & [Hk _] & Hw).
    split; [exact Hb|]. split; [exact He|].
    assert (Hin : ∀ c, In (Broadcast t c) evs
                       ↔ In (Broadcast t c) (events_of t evs)).
    { intros c. rewrite in_events_of. simpl. tauto. }
    split; [|split].
    + rewrite Hin, He. unfold board_events.
      destruct (Z.eqb_spec (boarding (stn s0) + 1) (people_to_sit (stn s0)));
        simpl; [tauto|].
      split; [intros [?|?]; [discriminate|tauto] | tauto].
    + intros Hlt c. rewrite Hin, He. unfold board_events.
      destruct (Z.eqb_spec (boarding (stn s0) + 1) (people_to_sit (stn s0)));
        [lia|]. simpl. intros [?|?]; [discriminate|tauto].
    + intros Heq. split; [|exact (Hw Heq)].
      intros t' n H0. destruct (Hk t' n H0) as [H'|H']; [|exact H'].
      destruct (Hw Heq t' n H').
Qed.

Lemma on_board_broadcast_witness :
  (let before :=
     arrive 1 ++ take_three ++ board_last 1 ++ board 2
     ++ [Call 3 on_board; Step 3] in
   let s0 := state_after before initial in
   let acts := [Step 3; Call 1 wait_for_train; Step 3; Step 3] in
   let s := state_after acts s0 in
   people_to_sit (stn s0) = 1 ∧ boarding (stn s0) = 2 ∧
   boarding (stn s) = 3 ∧ ∀ c, ¬ In (Broadcast 3 c) (events_after acts s0))
  ∧
  (let before :=
     arrive 1 ++ announce 0 3 ++ claim 1 ++ [Call 1 on_board; Step 1] in
   let s0 := state_after before initial in
   let acts := [Step 1; Call 2 wait_for_train; Step 1; Step 1; Step 1] in
   let s := state_after acts s0 in
   people_to_sit (stn s0) = 1 ∧ boarding (stn s0) = 0 ∧
   pc_of s0 0 = InLoad 3 L_sleep ∧
   In (Broadcast 1 all_boarded) (events_after acts s0) ∧
   pc_of s 0 = InLoad 3 L_wake ∧ ∀ t' n, pc_of s t' ≠ InLoad n L_sleep).
Proof.
  split.
  - intros before s0 acts s.
    assert (Hr : reachable s0).
    { exists before, (events_after before initial). vm_compute. reflexivity. }
    assert (H0 : pc_of s0 3 = InBoard O_inc) by (vm_compute; reflexivity).
    destruct (on_board_broadcast 3 s0 Hr H0) as [_ Hall].
    assert (Hrun : run acts s0 = Some (events_after acts s0, s))
      by (vm_compute; reflexivity).
    assert (Hnc : Forall (no_call 3) acts) by (subst acts; check_schedule).
    assert (Hidle : pc_of s 3 = Idle) by (vm_compute; reflexivity).
    assert (Hl : last acts = Some (Step 3)) by reflexivity.
    destruct (Hall _ _ _ Hnc Hrun Hidle Hl) as (Hb & _ & _ & Hno & _).
    assert (Hp : people_to_sit (stn s0) = 1) by (vm_compute; reflexivity).
    assert (Hb0 : boarding (stn s0) = 2) by (vm_compute; reflexivity).
    split; [exact Hp|]. split; [exact Hb0|]. split.
    + rewrite Hb, Hb0. reflexivity.
    + apply Hno. rewrite Hp, Hb0. reflexivity.
  - intros before s0 acts s.
    assert (Hr : reachable s0).
    { exists before, (events_after before initial). vm_compute. reflexivity. }
    assert (H0 : pc_of s0 1 = InBoard O_inc) by (vm_compute; reflexivity).
    destruct (on_board_broadcast 1 s0 Hr H0) as [_ Hall].
    assert (Hrun : run acts s0 = Some (events_after acts s0, s))
      by (vm_compute; reflexivity).
    assert (Hnc : Forall (no_call 1) acts) by (subst acts; check_schedule).
    assert (Hidle : pc_of s 1 = Idle) by (vm_compute; reflexivity).
    assert (Hl : last acts = Some (Step 1)) by reflexivity.
    destruct (Hall _ _ _ Hnc Hrun Hidle Hl) as (_ & _ & Hiff & _ & Hwake).
    assert (Hp : people_to_sit (stn s0) = 1) by (vm_compute; reflexivity).
    assert (Hb0 : boarding (stn s0) = 0) by (vm_compute; reflexivity).
    assert (Hc : pc_of s0 0 = InLoad 3 L_sleep) by (vm_compute; reflexivity).
    assert (Heq : boarding (stn s0) + 1 = people_to_sit (stn s0))
      by (rewrite Hp, Hb0; reflexivity).
    destruct (Hwake Heq) as [Hw Hnone].
    split; [exact Hp|]. split; [exact Hb0|]. split; [exact Hc|].
    split; [apply Hiff, Heq|]. split; [exact (Hw _ _ Hc) | exact Hnone].
Defined.

(** C10. [on_board] writes no counter but [boarding].  The call itself and
    every statement of it leave [waiting], [seats_available] and
    [people_to_sit] as they are, and only the statement of line 83 changes
    [boarding]; and from the moment the call has taken the mutex, in a
    state [s0] reached from the initialized station, until it has returned,
    the three counters keep the values they have in [s0], however the
    threads are scheduled. *)
Theorem on_board_frame t :
  (∀ s evs s', step (Call t on_board) s = Some (evs, s') → stn s' = stn s) ∧
  (∀ s o evs s',
     pc_of s t = InBoard o → step (Step t) s = Some (evs, s') →
     waiting (stn s') = waiting (stn s) ∧
     seats_available (stn s') = seats_available (stn s) ∧
     people_to_sit (stn s') = people_to_sit (stn s) ∧
     boarding (stn s') =
       match o with O_inc => boarding (stn s) + 1 | _ => boarding (stn s) end) ∧
  (∀ s0 acts evs s,
     reachable s0 → pc_of s0 t = InBoard O_inc →
     Forall (no_call t) acts → run acts s0 = Some (evs, s) →
     pc_of s t ≠ Idle ∨ last acts = Some (Step t) →
     waiting (stn s) = waiting (stn s0) ∧
     seats_available (stn s) = seats_available (stn s0) ∧
     people_to_sit (stn s) = people_to_sit (stn s0)).
Proof.
  split; [|split].
  - intros s evs s' H. simpl in H.
    destruct (pc_of s t); try discriminate. by injection H as _ <-.
  - intros s o evs s' Hpc H. simpl in H. rewrite Hpc in H.
    destruct o; simpl in H; unfold_stmt H; injection H as _ <-; done.
  - intros s0 acts evs s Hr Ht Hnc H Hin.
    pose proof (reachable_mutex_inv s0 Hr) as Hi.
    destruct (board_any t s0 _ _ _ Hi Ht Hnc H) as [[HP _]|[Hidle Hpost]].
    + unfold board_inv in HP.
      destruct (pc_of s t) as [| |?|o]; tauto.
    + destruct Hin as [?|Hl]; [done|].
      destruct (Hpost Hl) as [(_ & ? & ? & ? & _) _]. done.
Qed.

Lemma on_board_frame_witness :
  let before := arrive 1 ++ announce 0 3 ++ claim 1 ++ [Call 1 on_board; Step 1] in
  let s0 := state_after before initial in
  let acts := [Step 1; Call 2 wait_for_train; Step 1; Step 1; Step 1] in
  let s := state_after acts s0 in
  pc_of s 1 = Idle ∧
  waiting (stn s) = waiting (stn s0) ∧
  seats_available (stn s) = seats_available (stn s0) ∧
  people_to_sit (stn s) = people_to_sit (stn s0).
Proof.
  intros before s0 acts s.
  assert (Hr : reachable s0).
  { exists before, (events_after before initial). vm_compute. reflexivity. }
  assert (H0 : pc_of s0 1 = InBoard O_inc) by (vm_compute; reflexivity).
  assert (Hrun : run acts s0 = Some (events_after acts s0, s))
    by (vm_compute; reflexivity).
  assert (Hnc : Forall (no_call 1) acts) by (subst acts; check_schedule).
  assert (Hl : last acts = Some (Step 1)) by reflexivity.
  split; [vm_compute; reflexivity|].
  exact (proj2 (proj2 (on_board_frame 1)) s0 acts _ s Hr H0 Hnc Hrun
           (or_intror Hl)).
Defined.

(** * wait_for_train *)






(** * Further properties of the station *)

(** ** The mutex *)

Lemma step_lock_owner a s evs s' :
  mutex_inv s →
  (∀ t, lock (stn s) = Some t → holds_lock (pc_of s t) = true) →
  step a s = Some (evs, s') →
  ∀ t, lock (stn s') = Some t → holds_lock (pc_of s' t) = true.
Proof.
  intros Hi Ho H. pose proof (inv_mutex s Hi) as Hm. step_cases H.
  all: intros t'; pcs; case_decide; subst; simpl; try done;
       rewrite ?holds_lock_wake.
  all: try (intros Ht'; apply Ho in Ht'; rewrite Hpc in Ht'; discriminate).
  all: try apply Ho.
  all: try congruence.
  all: intros Ht'; exfalso;
       match goal with Hne : _ ≠ _ |- _ => apply Hne end;
       assert (Hl : lock (stn s) = Some t) by (apply Hm; by rewrite Hpc);
       congruence.
Qed.

Lemma reachable_lock_owner s t :
  reachable s → lock (stn s) = Some t → holds_lock (pc_of s t) = true.
Proof.
  intros (acts & evs & H). revert t.
  apply (run_invariant
           (λ s, mutex_inv s ∧
                 ∀ t, lock (stn s) = Some t → holds_lock (pc_of s t) = true)
           (λ _, True)) in H.
  - tauto.
  - intros a s1 e s2 [Hi Hk] _ Hs.
    eauto using step_mutex_inv, step_lock_owner.
  - split; [apply initial_mutex_inv | intros t; discriminate].
  - apply Forall_true. done.
Qed.

(** X1. Mutual exclusion.  In every state reached from the initialized
    station, a thread is between a [pthread_mutex_lock] and the matching
    release (unlock or [pthread_cond_wait]) of one of the three operations
    if and only if it owns the mutex; so no two threads are inside
    critical sections at once, and when the mutex is free no thread is
    inside one. *)
Theorem mutual_exclusion s :
  reachable s →
  (∀ t, holds_lock (pc_of s t) = true ↔ lock (stn s) = Some t) ∧
  (∀ t t', holds_lock (pc_of s t) = true → holds_lock (pc_of s t') = true →
           t = t') ∧
  (lock (stn s) = None → ∀ t, holds_lock (pc_of s t) = false).
Proof.
  intros Hr. pose proof (reachable_mutex_inv s Hr) as Hi.
  split; [|split].
  - intros t. split; [apply (inv_mutex s Hi) | apply reachable_lock_owner, Hr].
  - intros t t'. apply exclusion, Hi.
  - intros Hn t. destruct (holds_lock (pc_of s t)) eqn:E; [|done].
    apply (inv_mutex s Hi) in E. congruence.
Qed.

Lemma mutual_exclusion_witness :
  let acts := arrive 1 ++ announce 0 2 ++ steps 1 2
              ++ [Call 2 wait_for_train] in
  let s := state_after acts initial in
  pc_of s 1 = InWait W_dec_seats ∧ lock (stn s) = Some 1%nat ∧
  holds_lock (pc_of s 2) = false.
Proof.
  intros acts s.
  assert (Hr : reachable s).
  { exists acts, (events_after acts initial). vm_compute. reflexivity. }
  destruct (mutual_exclusion s Hr) as (Hiff & Hex & _).
  assert (H1 : pc_of s 1 = InWait W_dec_seats) by (vm_compute; reflexivity).
  assert (Hl : holds_lock (pc_of s 1) = true) by (rewrite H1; reflexivity).
  split; [exact H1|]. split; [apply Hiff, Hl|].
  destruct (holds_lock (pc_of s 2)) eqn:E; [|reflexivity].
  discriminate (Hex 1%nat 2%nat Hl E).
Defined.

(** ** What [waiting] counts *)

Lemma counted_comm (z1 z2 : pc) (y : Z) :
  counted z1 + (counted z2 + y) = counted z2 + (counted z1 + y).
Proof. lia. Qed.

Lemma passengers_waiting_goto t p s :
  passengers_waiting (goto t p s)
  = counted p - counted (pc_of s t) + passengers_waiting s.
Proof.
  unfold passengers_waiting, pc_of, goto. simpl.
  destruct (pool s !! t) as [q|] eqn:E; simpl.
  - rewrite <- (insert_delete_eq (pool s)).
    rewrite (map_fold_delete_L _ _ t q (pool s)); [|intros; apply counted_comm|done].
    rewrite map_fold_insert_L;
      [lia | intros; apply counted_comm | apply lookup_delete_eq].
  - rewrite map_fold_insert_L; [lia | intros; apply counted_comm | done].
Qed.

Lemma counted_wake c p : counted (wake c p) = counted p.
Proof. destruct c, p as [|n []|[]|[]]; reflexivity. Qed.

Lemma passengers_waiting_broadcast c s :
  passengers_waiting (pthread_cond_broadcast c s) = passengers_waiting s.
Proof.
  unfold passengers_waiting, pthread_cond_broadcast. simpl.
  induction (pool s) as [|i x m Hi IH] using map_ind.
  - by rewrite fmap_empty.
  - rewrite fmap_insert.
    rewrite !map_fold_insert_L;
      [|intros; apply counted_comm|done|intros; apply counted_comm
       |by rewrite lookup_fmap, Hi].
    rewrite counted_wake, IH. reflexivity.
Qed.

Lemma step_waiting_count a s evs s' :
  waiting (stn s) = passengers_waiting s → step a s = Some (evs, s') →
  waiting (stn s') = passengers_waiting s'.
Proof.
  intros Hw H. step_cases H.
  all: rewrite passengers_waiting_goto; unfold pthread_mutex_unlock;
       rewrite ?pc_of_broadcast, ?passengers_waiting_broadcast, ?counted_wake;
       change (pc_of (set_waiting _ s) t) with (pc_of s t);
       change (pc_of (set_seats_available _ s) t) with (pc_of s t);
       change (pc_of (set_people_to_sit _ s) t) with (pc_of s t);
       change (pc_of (set_boarding _ s) t) with (pc_of s t);
       change (pc_of (set_lock _ s) t) with (pc_of s t);
       rewrite Hpc; simpl.
  all: unfold passengers_waiting in *; simpl; lia.
Qed.

(** X2. In every state reached from the initialized station, [waiting] is
    the number of threads that have executed the increment of line 59 of
    [wait_for_train] and not yet the decrement of line 73; in particular
    [waiting] is never negative. *)
Theorem waiting_counts_passengers acts evs s :
  run acts initial = Some (evs, s) →
  waiting (stn s) = passengers_waiting s ∧ 0 ≤ waiting (stn s).
Proof.
  intros H.
  assert (Hw : waiting (stn s) = passengers_waiting s).
  { apply (run_invariant (λ s, waiting (stn s) = passengers_waiting s)
             (λ _, True)) in H; [done| |reflexivity|by apply Forall_true].
    intros a s1 e s2 Hs _. by apply step_waiting_count. }
  split; [exact Hw|]. rewrite Hw. unfold passengers_waiting.
  apply (map_fold_weak_ind (λ k _, 0 ≤ k)); [lia|].
  intros i x m r _ Hr. destruct x as [|n []|[]|[]]; simpl; lia.
Qed.

Lemma waiting_counts_passengers_witness :
  let s := state_after (arrive 1 ++ arrive 2 ++ [Call 3 wait_for_train]) initial in
  waiting (stn s) = 2 ∧ passengers_waiting s = 2.
Proof.
  intros s.
  assert (H : run (arrive 1 ++ arrive 2 ++ [Call 3 wait_for_train]) initial
              = Some (events_after
                        (arrive 1 ++ arrive 2 ++ [Call 3 wait_for_train])
                        initial, s)) by (vm_compute; reflexivity).
  destruct (waiting_counts_passengers _ _ _ H) as [Hw _].
  split; [vm_compute; reflexivity | rewrite <- Hw; vm_compute; reflexivity].
Defined.

Lemma passengers_waiting_nonneg s : 0 ≤ passengers_waiting s.
Proof.
  unfold passengers_waiting.
  apply (map_fold_weak_ind (λ k _, 0 ≤ k)); [lia|].
  intros i x m r _ Hr. destruct x as [|n []|[]|[]]; simpl; lia.
Qed.

Lemma step_quota_nonneg a s evs s' :
  seats_inv s → waiting (stn s) = passengers_waiting s →
  0 ≤ people_to_sit (stn s) → step a s = Some (evs, s') →
  0 ≤ people_to_sit (stn s').
Proof.
  intros [Hc _ _] Hw Hp H. pose proof (passengers_waiting_nonneg s) as Hn.
  step_cases H; simpl; try lia.
  apply Hc in Hpc. lia.
Qed.

(** X3. In every state reached from the initialized station by a run whose
    trains have non-negative sizes, the four counters of the station are
    non-negative. *)
Theorem counters_nonnegative acts evs s :
  Forall legal acts → run acts initial = Some (evs, s) →
  0 ≤ waiting (stn s) ∧ 0 ≤ seats_available (stn s) ∧
  0 ≤ people_to_sit (stn s) ∧ 0 ≤ boarding (stn s).
Proof.
  intros Hl H.
  pose proof (run_mutex_inv _ _ _ _ initial_mutex_inv H) as [_ Hb].
  pose proof (run_seats_inv _ _ _ _ initial_mutex_inv initial_seats_inv Hl H)
    as [_ Hs _].
  apply (run_invariant
           (λ s, (mutex_inv s ∧ seats_inv s) ∧
                 waiting (stn s) = passengers_waiting s ∧
                 0 ≤ people_to_sit (stn s)) legal) in H; [| |split|done].
  - destruct H as (_ & Hw & Hp). rewrite Hw.
    pose proof (passengers_waiting_nonneg s). done.
  - intros a s1 e s2 ([Hi Hsi] & Hw & Hp) Ha Hs1.
    eauto 10 using step_mutex_inv, step_seats_inv, step_waiting_count,
      step_quota_nonneg.
  - split; [apply initial_mutex_inv | apply initial_seats_inv].
  - split; [reflexivity | simpl; lia].
Qed.

Lemma counters_nonnegative_witness :
  let s := state_after two_boarded initial in
  0 ≤ waiting (stn s) ∧ 0 ≤ seats_available (stn s) ∧
  0 ≤ people_to_sit (stn s) ∧ 0 ≤ boarding (stn s).
Proof.
  intros s.
  apply (counters_nonnegative two_boarded (events_after two_boarded initial) s).
  - unfold two_boarded. check_schedule.
  - vm_compute. reflexivity.
Defined.

(** ** Tests and the statements they guard *)

Lemma step_guards a s evs s' :
  mutex_inv s → (∀ t, guard_ok (stn s) (pc_of s t)) →
  step a s = Some (evs, s') → ∀ t, guard_ok (stn s') (pc_of s' t).
Proof.
  intros Hi Hg H t'. pose proof (Hg t') as Hg'.
  pose proof (exclusion s (actor a) t' Hi) as Hexcl.
  step_cases H; simpl in Hexcl; pcs; case_decide; subst; simpl.
  all: rewrite ?Z.ltb_lt, ?Z.ltb_ge, ?Z.eqb_eq, ?Z.eqb_neq in *.
  all: try first [exact I | lia | assumption].
  all: destruct (pc_of s t') as [|m []|[]|[]] eqn:E; unfold wake;
       simpl in *; try exact I; try exact Hg'.
  all: exfalso; match goal with Hne : _ ≠ _ |- _ => apply Hne end;
       apply Hexcl; rewrite ?Hpc; reflexivity.
Qed.

Lemma reachable_guards s t : reachable s → guard_ok (stn s) (pc_of s t).
Proof.
  intros (acts & evs & H). revert t.
  apply (run_invariant
           (λ s, mutex_inv s ∧ ∀ t, guard_ok (stn s) (pc_of s t))
           (λ _, True)) in H.
  - tauto.
  - intros a s1 e s2 [Hi Hk] _ Hs.
    eauto using step_mutex_inv, step_guards.
  - split; [apply initial_mutex_inv | intros t; exact I].
  - apply Forall_true. done.
Qed.

(** X4. No test goes stale.  In every state reached from the initialized
    station, a thread that stands at a statement guarded by a test on the
    counters still finds the test's outcome true: the controller is about
    to sleep (line 43) only with [boarding < people_to_sit] and about to
    reset (line 47) only with [people_to_sit ≤ boarding]; a passenger is
    about to sleep (line 65) only with [seats_available = 0] and about to
    take a seat (line 72) only with [seats_available ≠ 0]; [on_board] is
    about to broadcast (line 89) only with [boarding = people_to_sit]. *)
Theorem tests_stay_true s t :
  reachable s →
  match pc_of s t with
  | InLoad _ L_wait => boarding (stn s) < people_to_sit (stn s)
  | InLoad _ L_reset_boarding => people_to_sit (stn s) ≤ boarding (stn s)
  | InWait W_wait => seats_available (stn s) = 0
  | InWait W_dec_seats => seats_available (stn s) ≠ 0
  | InBoard O_bcast => boarding (stn s) = people_to_sit (stn s)
  | _ => True
  end.
Proof. intros Hr. exact (reachable_guards s t Hr). Qed.

Lemma tests_stay_true_witness :
  let acts := arrive 1 ++ announce 0 2 ++ [Call 2 wait_for_train]
              ++ steps 1 2 in
  let s := state_after acts initial in
  pc_of s 1 = InWait W_dec_seats ∧ pc_of s 2 = InWait W_lock ∧
  seats_available (stn s) ≠ 0.
Proof.
  intros acts s.
  assert (Hr : reachable s).
  { exists acts, (events_after acts initial). vm_compute. reflexivity. }
  assert (H1 : pc_of s 1 = InWait W_dec_seats) by (vm_compute; reflexivity).
  pose proof (tests_stay_true s 1 Hr) as H. rewrite H1 in H.
  split; [exact H1|]. split; [vm_compute; reflexivity | exact H].
Defined.

(** ** No wake-up is lost *)

Lemma wake_train_arrived_awake p : wake train_arrived p ≠ InWait W_sleep.
Proof. destruct p as [|m []|[]|[]]; discriminate. Qed.

Lemma wake_all_boarded_awake p n : wake all_boarded p ≠ InLoad n L_sleep.
Proof. destruct p as [|m []|[]|[]]; discriminate. Qed.

Lemma wake_asleep c p : wake c p = InWait W_sleep → p = InWait W_sleep.
Proof. destruct c, p as [|m []|[]|[]]; unfold wake; simpl; congruence. Qed.

Lemma step_passenger_wakeup a s evs s' :
  mutex_inv s → (∀ t, guard_ok (stn s) (pc_of s t)) →
  seats_available (stn s) = 0 ∨ (∀ t, pc_of s t ≠ InWait W_sleep)
  ∨ announcing s →
  step a s = Some (evs, s') →
  seats_available (stn s') = 0 ∨ (∀ t, pc_of s' t ≠ InWait W_sleep)
  ∨ announcing s'.
Proof.
  intros Hi Hg HK H. pose proof (inv_mutex s Hi) as Hm.
  destruct HK as [Hz | [Hns | (c & n & Hc)]].
  - (* no seat on offer *)
    step_cases H; simpl; try (left; exact Hz); try (left; reflexivity).
    + right; right. exists t, count. left. apply pc_of_goto_eq.
    + specialize (Hg t). rewrite Hpc in Hg. simpl in Hg. done.
  - (* nobody asleep *)
    step_cases H.
    all: try (right; left; intros t'; pcs; case_decide; subst;
              try discriminate; try apply Hns;
              intros Hw; apply wake_asleep in Hw; revert Hw; apply Hns).
    left. specialize (Hg t). rewrite Hpc in Hg. exact Hg.
  - (* a broadcast is on its way *)
    assert (Hlc : holds_lock (pc_of s c) = true)
      by (destruct Hc as [-> | ->]; reflexivity).
    pose proof (exclusion s c (actor a) Hi Hlc) as Hexcl.
    pose proof (Hm c Hlc) as Hown.
    destruct (decide (actor a = c)) as [Heq|Hne].
    + destruct a as [t1 c1|t1|t1]; simpl in Heq; subst t1; simpl in H.
      * destruct Hc as [Hc|Hc]; rewrite Hc in H; discriminate.
      * destruct Hc as [Hc|Hc]; rewrite Hc in H; simpl in H;
          injection H as _ <-.
        -- right; right. exists c, n. right. apply pc_of_goto_eq.
        -- right; left. intros t'. pcs. case_decide; [discriminate|].
           apply wake_train_arrived_awake.
      * destruct Hc as [Hc|Hc]; rewrite Hc in H; discriminate.
    + right; right. exists c, n.
      destruct (other_step_frame c a s evs s' Hi Hlc Hne H) as (_ & -> & _).
      exact Hc.
Qed.

(** X5. No wake-up of a passenger is lost.  In every state reached from
    the initialized station, if a passenger is asleep on [train_arrived]
    while [seats_available] is not 0, then a controller stands between
    line 29 and line 38 of [load_train], with the mutex, and its broadcast
    of line 38 is still to come. *)
Theorem passenger_wakeup_not_lost s t :
  reachable s → pc_of s t = InWait W_sleep → seats_available (stn s) ≠ 0 →
  ∃ c n, (pc_of s c = InLoad n L_quota ∨ pc_of s c = InLoad n L_bcast)
         ∧ lock (stn s) = Some c.
Proof.
  intros (acts & evs & H) Ht Hs.
  apply (run_invariant
           (λ s, (mutex_inv s ∧ ∀ t, guard_ok (stn s) (pc_of s t)) ∧
                 (seats_available (stn s) = 0
                  ∨ (∀ t, pc_of s t ≠ InWait W_sleep) ∨ announcing s))
           (λ _, True)) in H.
  - destruct H as [[Hi _] [?|[Hns|(c & n & Hc)]]]; [done| |].
    + exfalso. exact (Hns t Ht).
    + exists c, n. split; [exact Hc|]. apply (inv_mutex s Hi).
      destruct Hc as [-> | ->]; reflexivity.
  - intros a s1 e s2 [[Hi Hg] HK] _ Hs1.
    eauto 10 using step_mutex_inv, step_guards, step_passenger_wakeup.
  - split; [split; [apply initial_mutex_inv | intros t'; exact I]|].
    left. reflexivity.
  - apply Forall_true. done.
Qed.

Lemma passenger_wakeup_not_lost_witness :
  let acts := arrive 1 ++ [Call 0 (load_train 2); Step 0; Step 0] in
  let s := state_after acts initial in
  pc_of s 1 = InWait W_sleep ∧ seats_available (stn s) = 2 ∧
  ∃ c n, (pc_of s c = InLoad n L_quota ∨ pc_of s c = InLoad n L_bcast)
         ∧ lock (stn s) = Some c.
Proof.
  intros acts s.
  assert (Hr : reachable s).
  { exists acts, (events_after acts initial). vm_compute. reflexivity. }
  assert (H1 : pc_of s 1 = InWait W_sleep) by (vm_compute; reflexivity).
  assert (H2 : seats_available (stn s) = 2) by (vm_compute; reflexivity).
  split; [exact H1|]. split; [exact H2|].
  apply (passenger_wakeup_not_lost s 1 Hr H1). rewrite H2. discriminate.
Defined.

Lemma wake_load_asleep c p n :
  wake c p = InLoad n L_sleep → p = InLoad n L_sleep.
Proof. destruct c, p as [|m []|[]|[]]; unfold wake; simpl; congruence. Qed.

Lemma step_sole_controller_only c a s evs s' :
  sole_controller c s → only_controller c a → step a s = Some (evs, s') →
  sole_controller c s'.
Proof.
  unfold sole_controller. intros Hsole Hnt H. step_cases H.
  all: intros t' m l'; pcs; case_decide; subst; try discriminate; try done.
  all: try (intros _; eapply Hsole; eassumption).
  all: try apply Hsole.
  all: intros Hw; apply wake_InLoad in Hw as [? Hw]; eapply Hsole; eassumption.
Qed.

Lemma step_controller_wakeup c a s evs s' :
  mutex_inv s → (∀ t, guard_ok (stn s) (pc_of s t)) → sole_controller c s →
  (∀ n, pc_of s c = InLoad n L_sleep →
        boarding (stn s) < people_to_sit (stn s)
        ∨ (boarding (stn s) = people_to_sit (stn s) ∧ signalling s)) →
  step a s = Some (evs, s') →
  ∀ n, pc_of s' c = InLoad n L_sleep →
       boarding (stn s') < people_to_sit (stn s')
       ∨ (boarding (stn s') = people_to_sit (stn s') ∧ signalling s').
Proof.
  intros Hi Hg Hsole HC H n' Hc'. pose proof (inv_mutex s Hi) as Hm.
  pose proof (Hg (actor a)) as Hga.
  pose proof (λ t0, exclusion s t0 (actor a) Hi) as Hexcl.
  step_cases H; simpl in Hga, Hexcl; rewrite ?Hpc in Hga; simpl in Hga.
  all: destruct (decide (t = c)) as [->|Hne];
    [ pcs; rewrite decide_True in Hc' by done; try discriminate Hc'
    | pcs; rewrite decide_False in Hc' by done;
      try (exfalso; apply Hne; eapply Hsole; eassumption) ].
  (* the controller goes to sleep *)
  all: try (left; exact Hga).
  (* another thread moves while the controller sleeps *)
  all: try (exfalso; exact (wake_all_boarded_awake _ _ Hc')).
  all: try apply wake_load_asleep in Hc'.
  all: try (rewrite Hc' in *; discriminate).
  all: destruct (HC _ Hc') as [Hlt | [Heq (t0 & Ht0)]].
  all: try (left; simpl; lia).
  all: try (assert (Hl0 : holds_lock (pc_of s t0) = true)
              by (destruct Ht0 as [-> | ->]; reflexivity)).
  all: try (pose proof (Hm t0 Hl0); congruence).
  all: try (assert (t0 = t) as -> by (apply Hexcl; rewrite ?Hpc; done);
            rewrite Hpc in Ht0; destruct Ht0; try discriminate).
  all: try (right; split; [simpl; lia|]; exists t0; pcs;
            rewrite decide_False by (intros ->; rewrite Hpc in Ht0;
                                     destruct Ht0; discriminate);
            exact Ht0).
  all: try (rewrite ?Z.eqb_neq in *; simpl in *; lia).
  - destruct (decide (boarding (stn s) + 1 = people_to_sit (stn s)));
      [right | left; lia].
    split; [done|]. exists t. left. apply pc_of_goto_eq.
  - right. split; [done|]. exists t. right. apply pc_of_goto_eq.
Qed.

Lemma initial_sole_controller c : sole_controller c initial.
Proof. intros t m l. discriminate. Qed.

(** X6. No wake-up of the controller is lost.  In a run from the
    initialized station in which only thread [c] calls [load_train],
    whenever [c] is asleep on [all_boarded] either [boarding] is still
    below [people_to_sit], or it has just reached it and the [on_board]
    that made it so holds the mutex at line 86 or 89, its broadcast still
    to come.  In particular [boarding] never passes [people_to_sit] while
    the controller sleeps, so that the equality test of line 86 cannot
    miss it. *)
Theorem controller_wakeup_not_lost c acts evs s n :
  Forall (only_controller c) acts → run acts initial = Some (evs, s) →
  pc_of s c = InLoad n L_sleep →
  boarding (stn s) < people_to_sit (stn s)
  ∨ (boarding (stn s) = people_to_sit (stn s) ∧
     ∃ t, (pc_of s t = InBoard O_test ∨ pc_of s t = InBoard O_bcast)
          ∧ lock (stn s) = Some t).
Proof.
  intros Hoc H Hc.
  apply (run_invariant
           (λ s, (mutex_inv s ∧ (∀ t, guard_ok (stn s) (pc_of s t))
                  ∧ sole_controller c s) ∧
                 ∀ n, pc_of s c = InLoad n L_sleep →
                      boarding (stn s) < people_to_sit (stn s)
                      ∨ (boarding (stn s) = people_to_sit (stn s)
                         ∧ signalling s))
           (only_controller c)) in H; [| |split|done].
  - destruct H as [(Hi & _ & _) HC].
    destruct (HC n Hc) as [?|[? (t & Ht)]]; [by left|right].
    split; [done|]. exists t. split; [exact Ht|]. apply (inv_mutex s Hi).
    destruct Ht as [-> | ->]; reflexivity.
  - intros a s1 e s2 [(Hi & Hg & Hsole) HC] Ha Hs1.
    split; [split; [|split]|].
    + eapply step_mutex_inv; eauto.
    + eapply step_guards; eauto.
    + eapply step_sole_controller_only; eauto.
    + eapply step_controller_wakeup; eauto.
  - split; [apply initial_mutex_inv|].
    split; [intros t; exact I | apply initial_sole_controller].
  - intros m. discriminate.
Qed.

Lemma controller_wakeup_not_lost_witness :
  let acts := arrive 1 ++ announce 0 3 ++ claim 1
              ++ [Call 1 on_board; Step 1; Step 1] in
  let s := state_after acts initial in
  pc_of s 0 = InLoad 3 L_sleep ∧ pc_of s 1 = InBoard O_test ∧
  boarding (stn s) = 1 ∧ people_to_sit (stn s) = 1 ∧
  (boarding (stn s) < people_to_sit (stn s)
   ∨ (boarding (stn s) = people_to_sit (stn s) ∧
      ∃ t, (pc_of s t = InBoard O_test ∨ pc_of s t = InBoard O_bcast)
           ∧ lock (stn s) = Some t)).
Proof.
  intros acts s.
  assert (Hoc : Forall (only_controller 0) acts) by (subst acts; check_schedule).
  assert (H : run acts initial = Some (events_after acts initial, s))
    by (vm_compute; reflexivity).
  assert (H0 : pc_of s 0 = InLoad 3 L_sleep) by (vm_compute; reflexivity).
  split; [exact H0|]. split; [vm_compute; reflexivity|].
  split; [vm_compute; reflexivity|]. split; [vm_compute; reflexivity|].
  exact (controller_wakeup_not_lost 0 acts _ s 3 Hoc H H0).
Defined.

(** ** Between two trains *)

Lemma step_train_gone c a s evs s' :
  (∀ t, guard_ok (stn s) (pc_of s t)) → sole_controller c s →
  train_gone c s → step a s = Some (evs, s') → train_gone c s'.
Proof.
  unfold train_gone. intros Hg Hsole HB H.
  pose proof (Hg (actor a)) as Hga.
  step_cases H; simpl in Hga; rewrite ?Hpc in Hga; simpl in Hga.
  all: destruct (decide (t = c)) as [->|Hne];
    [ rewrite ?Hpc in HB; pcs; rewrite decide_True by done; simpl;
      try tauto
    | pcs; rewrite decide_False by done;
      try (exfalso; apply Hne; eapply Hsole; eassumption) ].
  all: destruct (pc_of s c) as [|m []|[]|[]] eqn:Hc; unfold wake; simpl in *;
       try exact I; try exact HB; try tauto.
Qed.

(** X7. Between two trains the station offers nothing.  In a run from the
    initialized station in which only thread [c] calls [load_train],
    whenever [c] is not inside [load_train], or is there but has not yet
    executed line 29, or has only line 51 left, [seats_available] and
    [people_to_sit] are 0, no passenger stands at the decrement of line
    72, and a passenger that tests [seats_available] at line 62 goes to
    [pthread_cond_wait]. *)
Theorem no_seat_between_trains c acts evs s :
  Forall (only_controller c) acts → run acts initial = Some (evs, s) →
  (∀ n l, pc_of s c = InLoad n l → l = L_lock ∨ l = L_seats ∨ l = L_unlock) →
  seats_available (stn s) = 0 ∧ people_to_sit (stn s) = 0 ∧
  (∀ t, pc_of s t ≠ InWait W_dec_seats) ∧
  (∀ t, pc_of s t = InWait W_test →
        step (Step t) s = Some ([], goto t (InWait W_wait) s)).
Proof.
  intros Hoc H Hout.
  apply (run_invariant
           (λ s, (mutex_inv s ∧ (∀ t, guard_ok (stn s) (pc_of s t))
                  ∧ sole_controller c s) ∧ train_gone c s)
           (only_controller c)) in H; [| |split|done].
  - destruct H as [(_ & Hg & _) HB]. unfold train_gone in HB.
    assert (Hz : seats_available (stn s) = 0 ∧ people_to_sit (stn s) = 0).
    { destruct (pc_of s c) as [|m l| |] eqn:Hc; try exact HB.
      destruct (Hout m l eq_refl) as [->|[->| ->]]; exact HB. }
    destruct Hz as [Hs Hp]. split; [exact Hs|]. split; [exact Hp|]. split.
    + intros t Ht. specialize (Hg t). rewrite Ht in Hg. simpl in Hg. done.
    + intros t Ht. simpl. rewrite Ht. simpl. rewrite Hs. reflexivity.
  - intros a s1 e s2 [(Hi & Hg & Hsole) HB] Ha Hs1.
    split; [split; [|split]|].
    + eapply step_mutex_inv; eauto.
    + eapply step_guards; eauto.
    + eapply step_sole_controller_only; eauto.
    + eapply step_train_gone; eauto.
  - split; [apply initial_mutex_inv|].
    split; [intros t; exact I | apply initial_sole_controller].
  - split; reflexivity.
Qed.

Lemma no_seat_between_trains_witness :
  let acts := late_boarder ++ arrive 3 in
  let s := state_after acts initial in
  pc_of s 0 = Idle ∧ pc_of s 3 = InWait W_sleep ∧ boarding (stn s) = 1 ∧
  seats_available (stn s) = 0 ∧ people_to_sit (stn s) = 0.
Proof.
  intros acts s.
  assert (Hoc : Forall (only_controller 0) acts)
    by (subst acts; unfold late_boarder; check_schedule).
  assert (H : run acts initial = Some (events_after acts initial, s))
    by (vm_compute; reflexivity).
  assert (H0 : pc_of s 0 = Idle) by (vm_compute; reflexivity).
  assert (Hout : ∀ n l, pc_of s 0 = InLoad n l
                        → l = L_lock ∨ l = L_seats ∨ l = L_unlock)
    by (intros n l Hl; rewrite H0 in Hl; discriminate).
  destruct (no_seat_between_trains 0 acts _ s Hoc H Hout) as (Hs & Hp & _).
  split; [exact H0|]. split; [vm_compute; reflexivity|].
  split; [vm_compute; reflexivity|]. split; [exact Hs | exact Hp].
Defined.

(** ** A train gives away no more seats than it has *)

Lemma no_train_legal a : no_train a → legal a.
Proof. destruct a as [t []| |]; simpl; tauto. Qed.

Lemma no_train_only_controller c a : no_train a → only_controller c a.
Proof. destruct a as [t []| |]; simpl; tauto. Qed.

Lemma step_seat_account c n k a s evs s' :
  mutex_inv s → (∀ t, guard_ok (stn s) (pc_of s t)) → seats_inv s →
  sole_controller c s → seat_account c n k s → no_train a →
  step a s = Some (evs, s') →
  seat_account c n (k + takes_seat a s) s'.
Proof.
  unfold seat_account. intros Hi Hg [_ Hs _] Hsole HA Hnt H.
  pose proof (Hg (actor a)) as Hga.
  pose proof (λ t0, exclusion s t0 (actor a) Hi) as Hexcl.
  step_cases H; simpl in Hga, Hexcl; rewrite ?Hpc in Hga; simpl in Hga;
    simpl takes_seat; rewrite ?Hpc.
  all: try (exfalso; exact Hnt).
  all: destruct (decide (t = c)) as [->|Hne];
    [ rewrite ?Hpc in HA; pcs; rewrite decide_True by done; simpl;
      try (intuition lia)
    | pcs; rewrite decide_False by done;
      try (exfalso; apply Hne; eapply Hsole; eassumption) ].
  all: destruct (pc_of s c) as [|m []|[]|[]] eqn:Hc; unfold wake; simpl in *;
       try (intuition lia).
  all: exfalso; apply Hne; symmetry; apply Hexcl; rewrite ?Hc, ?Hpc;
       reflexivity.
Qed.

Lemma seats_taken_cons a acts s :
  seats_taken (a :: acts) s =
  '(_, s1) ← step a s; k ← seats_taken acts s1; Some (takes_seat a s + k).
Proof. reflexivity. Qed.

Lemma run_seat_account c n acts : ∀ s k0 evs s',
  mutex_inv s → (∀ t, guard_ok (stn s) (pc_of s t)) → seats_inv s →
  sole_controller c s → seat_account c n k0 s → Forall no_train acts →
  run acts s = Some (evs, s') →
  ∃ k, seats_taken acts s = Some k ∧ seat_account c n (k0 + k) s'.
Proof.
  induction acts as [|a acts IH];
    intros s k0 evs s' Hi Hg Hsi Hsole HA Hnt H.
  - injection H as _ <-. exists 0. by rewrite Z.add_0_r.
  - rewrite run_cons in H.
    destruct (step a s) as [[e1 s1]|] eqn:E1; simpl in H; [|discriminate].
    destruct (run acts s1) as [[e2 s2]|] eqn:E2; simpl in H; [|discriminate].
    injection H as _ <-. inversion Hnt as [|? ? Ha Hacts]; subst.
    destruct (IH s1 (k0 + takes_seat a s) e2 s2) as (k & Hk & HA2); try done.
    + eapply step_mutex_inv; eauto.
    + eapply step_guards; eauto.
    + eapply step_seats_inv; eauto using no_train_legal.
    + eapply step_sole_controller; eauto.
    + eapply step_seat_account; eauto.
    + rewrite seats_taken_cons, E1. simpl. rewrite Hk. simpl.
      eexists. split; [reflexivity|]. by rewrite Z.add_assoc.
Qed.

(** X8. A train gives away no more seats than it has.  Let the only
    controller [c] have just taken the mutex in [load_train n], in a state
    [s0] reached from the initialized station by a run whose trains have
    non-negative sizes, and let the threads be scheduled in any way, no
    other train being announced.  Then the number [k] of executions of the
    decrement of line 72 is at most [n]; and while the train is in the
    station, from line 35 to line 48, [seats_available] is [n - k]. *)
Theorem seats_taken_bounded c n acts0 evs0 s0 acts evs s :
  Forall legal acts0 → run acts0 initial = Some (evs0, s0) →
  pc_of s0 c = InLoad n L_seats → sole_controller c s0 →
  Forall no_train acts → run acts s0 = Some (evs, s) →
  ∃ k, seats_taken acts s0 = Some k ∧ 0 ≤ k ≤ n ∧
       ∀ m l, pc_of s c = InLoad m l →
              l ≠ L_lock → l ≠ L_seats → l ≠ L_reset_quota → l ≠ L_unlock →
              seats_available (stn s) = n - k.
Proof.
  intros Hl0 H0 Hc Hsole Hnt H.
  assert (Hr : reachable s0) by (eexists _, _; exact H0).
  pose proof (reachable_mutex_inv s0 Hr) as Hi.
  pose proof (run_seats_inv _ _ _ _ initial_mutex_inv initial_seats_inv Hl0 H0)
    as Hsi.
  assert (HA : seat_account c n 0 s0)
    by (unfold seat_account; rewrite Hc; done).
  destruct (run_seat_account c n acts s0 0 evs s Hi
              (λ t, reachable_guards s0 t Hr) Hsi Hsole HA Hnt H)
    as (k & Hk & HA2).
  rewrite Z.add_0_l in HA2.
  assert (Hsi' : seats_inv s).
  { eapply (run_seats_inv acts s0); eauto.
    eapply Forall_impl; [exact Hnt | apply no_train_legal]. }
  destruct Hsi' as [Hcnt Hs _].
  exists k. split; [exact Hk|]. unfold seat_account in HA2.
  destruct (pc_of s c) as [|m []|[]|[]] eqn:Hp; try tauto;
    try pose proof (Hcnt _ _ _ Hp);
    (split; [lia|]); intros m' l' Heq ? ? ? ?; inversion Heq; subst;
    try done; lia.
Qed.

Lemma seats_taken_bounded_witness :
  let acts0 := arrive 1 ++ [Call 0 (load_train 2); Step 0] in
  let s0 := state_after acts0 initial in
  let acts := steps 0 5 ++ claim 1 ++ arrive_and_claim 2 ++ arrive 3 in
  let s := state_after acts s0 in
  pc_of s 0 = InLoad 2 L_sleep ∧ pc_of s 3 = InWait W_sleep ∧
  seats_taken acts s0 = Some 2 ∧ seats_available (stn s) = 0.
Proof.
  intros acts0 s0 acts s.
  assert (Hl0 : Forall legal acts0) by (subst acts0; check_schedule).
  assert (H0 : run acts0 initial = Some (events_after acts0 initial, s0))
    by (vm_compute; reflexivity).
  assert (Hc : pc_of s0 0 = InLoad 2 L_seats) by (vm_compute; reflexivity).
  assert (Hsole : sole_controller 0 s0)
    by (apply sole_controllerb_sound; vm_compute; reflexivity).
  assert (Hnt : Forall no_train acts) by (subst acts; check_schedule).
  assert (H : run acts s0 = Some (events_after acts s0, s))
    by (vm_compute; reflexivity).
  destruct (seats_taken_bounded 0 2 acts0 _ s0 acts _ s Hl0 H0 Hc Hsole Hnt H)
    as (k & Hk & _ & Hin).
  assert (Hs : pc_of s 0 = InLoad 2 L_sleep) by (vm_compute; reflexivity).
  assert (Hk2 : seats_taken acts s0 = Some 2) by (vm_compute; reflexivity).
  split; [exact Hs|]. split; [vm_compute; reflexivity|].
  split; [exact Hk2|].
  rewrite (Hin _ _ Hs) by discriminate.
  rewrite Hk2 in Hk. injection Hk as <-. reflexivity.
Defined.

(** ** A passenger that finds a free seat *)

Lemma take_inv_locked t st0 e s :
  take_inv t st0 e s → holds_lock (pc_of s t) = true.
Proof.
  unfold take_inv. destruct (pc_of s t) as [|m []|[]|[]]; simpl; tauto.
Qed.

Lemma take_inv_frame t st0 e s s' :
  take_inv t st0 e s → stn s' = stn s → pc_of s' t = pc_of s t →
  take_inv t st0 e s'.
Proof. unfold take_inv. intros H -> ->. exact H. Qed.

Lemma take_inv_step t st0 e s e1 s' :
  seats_available st0 ≠ 0 →
  take_inv t st0 e s → step (Step t) s = Some (e1, s') →
  take_inv t st0 (e ++ e1) s'
  ∨ (pc_of s' t = Idle ∧ take_post t st0 (e ++ e1) s').
Proof.
  unfold take_inv, take_post. intros Hne HP H. simpl in H.
  destruct (pc_of s t) as [|m []|[]|[]] eqn:Hpc; try tauto;
    simpl in H; unfold_stmt H; injection H as <- <-;
    rewrite pc_of_goto_eq; simpl;
    destruct HP as (Hp & Hb & -> & Hw & Hs).
  all: rewrite ?Z.eqb_eq in *.
  all: try (left; repeat split; simpl; try done; lia).
  right. done.
Qed.

Lemma take_any t s0 acts evs s :
  mutex_inv s0 → pc_of s0 t = InWait W_inc →
  seats_available (stn s0) ≠ 0 →
  Forall (no_call t) acts → run acts s0 = Some (evs, s) →
  (take_inv t (stn s0) (events_of t evs) s
   ∧ ∀ t', blocked (pc_of s0 t') → blocked (pc_of s t'))
  ∨ (pc_of s t = Idle
     ∧ (last acts = Some (Step t) →
        take_post t (stn s0) (events_of t evs) s
        ∧ ∀ t', blocked (pc_of s0 t') → blocked (pc_of s t'))).
Proof.
  intros Hi Ht Hne Hnc H.
  apply (atomic_run t (take_inv t (stn s0)) (take_post t (stn s0))
           (take_inv_locked t (stn s0)) (take_inv_frame t (stn s0))
           (λ e s e1 s' _, take_inv_step t (stn s0) e s e1 s' Hne)
           acts [] s0 evs s Hi); [|done..].
  unfold take_inv. rewrite Ht. done.
Qed.

Lemma take_solo t s0 :
  pc_of s0 t = InWait W_inc → seats_available (stn s0) ≠ 0 →
  waiting (stn s0) < INT_MAX → INT_MIN ≤ waiting (stn s0) →
  INT_MIN < seats_available (stn s0) →
  ∃ s1, run (steps t 5) s0 = Some ([Return t wait_for_train], s1).
Proof.
  intros Ht Hne Hw Hw' Hs.
  assert (Hinc : incr (waiting (stn s0)) = Some (waiting (stn s0) + 1)).
  { unfold incr. by apply Z.ltb_lt in Hw as ->. }
  assert (Hdec : decr (seats_available (stn s0))
                 = Some (seats_available (stn s0) - 1)).
  { unfold decr. by apply Z.ltb_lt in Hs as ->. }
  assert (Hdec' : decr (waiting (stn s0) + 1)
                  = Some (waiting (stn s0) + 1 - 1)).
  { unfold decr.
    assert ((INT_MIN <? waiting (stn s0) + 1) = true) as ->
      by (apply Z.ltb_lt; lia). done. }
  apply Z.eqb_neq in Hne.
  rewrite (run_step _ _ _ _ Ht). simpl. rewrite Hinc. simpl.
  erewrite run_step by apply pc_of_goto_eq. simpl. rewrite Hne. simpl.
  erewrite run_step by apply pc_of_goto_eq. simpl. rewrite Hdec. simpl.
  erewrite run_step by apply pc_of_goto_eq. simpl. rewrite Hdec'. simpl.
  erewrite run_step by apply pc_of_goto_eq. simpl.
  eexists. reflexivity.
Qed.

Lemma reachable_waiting_nonneg s : reachable s → 0 ≤ waiting (stn s).
Proof.
  intros (acts & evs & H).
  apply (run_invariant (λ s, waiting (stn s) = passengers_waiting s)
           (λ _, True)) in H; [| |reflexivity|by apply Forall_true].
  - rewrite H. apply passengers_waiting_nonneg.
  - intros a s1 e s2 Hs _. by apply step_waiting_count.
Qed.

Lemma events_of_return t c : events_of t [Return t c] = [Return t c].
Proof. apply events_of_own. repeat constructor. Qed.

(** X9. A passenger that finds a free seat takes it at once.  Let thread
    [t] have just taken the mutex in [wait_for_train], in a state [s0]
    reached from the initialized station in which [seats_available] is not
    0 (a train is in the station, whether or not [t] was counted in its
    quota).  However the threads are scheduled, the call never goes to
    [pthread_cond_wait], and when it returns it has taken one seat and left
    [waiting], [people_to_sit] and [boarding] as they were in [s0].  Run
    alone, the call returns after its five remaining statements, unless an
    increment or decrement overflows. *)
Theorem passenger_takes_free_seat t s0 :
  reachable s0 → pc_of s0 t = InWait W_inc →
  seats_available (stn s0) ≠ 0 →
  (waiting (stn s0) < INT_MAX → INT_MIN < seats_available (stn s0) →
   ∃ s1, run (steps t 5) s0 = Some ([Return t wait_for_train], s1) ∧
         pc_of s1 t = Idle ∧ waiting (stn s1) = waiting (stn s0) ∧
         seats_available (stn s1) = seats_available (stn s0) - 1) ∧
  ∀ acts evs s,
    Forall (no_call t) acts → run acts s0 = Some (evs, s) →
    (∀ w, pc_of s t = InWait w → w ≠ W_wait ∧ w ≠ W_sleep ∧ w ≠ W_wake) ∧
    (pc_of s t = Idle → last acts = Some (Step t) →
     events_of t evs = [Return t wait_for_train] ∧
     waiting (stn s) = waiting (stn s0) ∧
     seats_available (stn s) = seats_available (stn s0) - 1 ∧
     people_to_sit (stn s) = people_to_sit (stn s0) ∧
     boarding (stn s) = boarding (stn s0)).
Proof.
  intros Hr Ht Hne. pose proof (reachable_mutex_inv s0 Hr) as Hi.
  assert (Hany : ∀ acts evs s,
    Forall (no_call t) acts → run acts s0 = Some (evs, s) →
    (∀ w, pc_of s t = InWait w → w ≠ W_wait ∧ w ≠ W_sleep ∧ w ≠ W_wake) ∧
    (pc_of s t = Idle → last acts = Some (Step t) →
     take_post t (stn s0) (events_of t evs) s)).
  { intros acts evs s Hnc H.
    destruct (take_any t s0 _ _ _ Hi Ht Hne Hnc H) as [[HP _]|[Hidle Hpost]].
    - unfold take_inv in HP. split.
      + intros w Hw. rewrite Hw in HP. destruct w; try tauto;
          repeat split; discriminate.
      + intros Hidle. rewrite Hidle in HP. done.
    - split; [intros w Hw; rewrite Hw in Hidle; discriminate|].
      intros _ Hl. destruct (Hpost Hl) as [? _]. done. }
  split.
  - intros Hw Hs. pose proof (reachable_waiting_nonneg s0 Hr) as Hw0.
    destruct (take_solo t s0 Ht Hne Hw) as [s1 H1];
      [unfold INT_MIN; lia | exact Hs |].
    destruct (take_any t s0 _ _ _ Hi Ht Hne (steps_no_call t 5) H1)
      as [[HP _]|[Hidle Hpost]].
    + exfalso. rewrite events_of_return in HP. unfold take_inv in HP.
      destruct (pc_of s1 t) as [|m l|w|o]; try tauto.
      destruct HP as (_ & _ & HP & _). discriminate.
    + destruct (Hpost (last_steps t 4)) as [(_ & ? & ? & _) _].
      exists s1. done.
  - intros acts evs s Hnc H. destruct (Hany _ _ _ Hnc H) as [H1 H2].
    split; [exact H1|]. intros Hidle Hl. exact (H2 Hidle Hl).
Qed.

Lemma passenger_takes_free_seat_witness :
  let acts0 := arrive 1 ++ announce 0 3 ++ [Call 2 wait_for_train; Step 2] in
  let s0 := state_after acts0 initial in
  let acts := [Step 2; Spurious 0; Step 2; Step 2; Step 2; Step 2] in
  let s := state_after acts s0 in
  people_to_sit (stn s0) = 1 ∧ waiting (stn s0) = 1 ∧
  pc_of s 2 = Idle ∧ waiting (stn s) = waiting (stn s0) ∧
  seats_available (stn s) = seats_available (stn s0) - 1.
Proof.
  intros acts0 s0 acts s.
  assert (Hr : reachable s0).
  { exists acts0, (events_after acts0 initial). vm_compute. reflexivity. }
  assert (Ht : pc_of s0 2 = InWait W_inc) by (vm_compute; reflexivity).
  assert (Hne : seats_available (stn s0) ≠ 0) by (vm_compute; discriminate).
  destruct (passenger_takes_free_seat 2 s0 Hr Ht Hne) as [_ Hall].
  assert (Hnc : Forall (no_call 2) acts) by (subst acts; check_schedule).
  assert (H : run acts s0 = Some (events_after acts s0, s))
    by (vm_compute; reflexivity).
  assert (Hidle : pc_of s 2 = Idle) by (vm_compute; reflexivity).
  assert (Hl : last acts = Some (Step 2)) by reflexivity.
  destruct (Hall _ _ _ Hnc H) as [_ Hret].
  destruct (Hret Hidle Hl) as (_ & Hw & Hs & _).
  split; [vm_compute; reflexivity|]. split; [vm_compute; reflexivity|].
  split; [exact Hidle|]. split; [exact Hw | exact Hs].
Defined.

(** ** Seats offered and seats taken *)

Lemma step_seats_conserved k o a s evs s' :
  seats_inv s → legal a → 0 ≤ k → k + seats_available (stn s) ≤ o →
  step a s = Some (evs, s') →
  0 ≤ k + takes_seat a s ∧
  k + takes_seat a s + seats_available (stn s') ≤ o + offers_seats a s.
Proof.
  intros [Hc Hs _] Hl Hk Hko H.
  step_cases H; simpl; rewrite ?Hpc; simpl; lia.
Qed.

Lemma seats_offered_cons a acts s :
  seats_offered (a :: acts) s =
  '(_, s1) ← step a s; k ← seats_offered acts s1; Some (offers_seats a s + k).
Proof. reflexivity. Qed.

Lemma run_seats_conserved acts : ∀ s k0 o0 evs s',
  mutex_inv s → seats_inv s → Forall legal acts →
  0 ≤ k0 → k0 + seats_available (stn s) ≤ o0 →
  run acts s = Some (evs, s') →
  ∃ k o, seats_taken acts s = Some k ∧ seats_offered acts s = Some o ∧
         0 ≤ k0 + k ∧ k0 + k + seats_available (stn s') ≤ o0 + o.
Proof.
  induction acts as [|a acts IH]; intros s k0 o0 evs s' Hi Hsi Hl Hk Hko H.
  - injection H as _ <-. exists 0, 0. rewrite !Z.add_0_r. done.
  - rewrite run_cons in H.
    destruct (step a s) as [[e1 s1]|] eqn:E1; simpl in H; [|discriminate].
    destruct (run acts s1) as [[e2 s2]|] eqn:E2; simpl in H; [|discriminate].
    injection H as _ <-. inversion Hl as [|? ? Ha Hacts]; subst.
    destruct (step_seats_conserved _ _ _ _ _ _ Hsi Ha Hk Hko E1) as [Hk1 Hko1].
    destruct (IH s1 _ _ e2 s2 (step_mutex_inv _ _ _ _ Hi E1)
                (step_seats_inv _ _ _ _ Hi Hsi Ha E1) Hacts Hk1 Hko1 E2)
      as (k & o & Hk2 & Ho2 & ? & ?).
    rewrite seats_taken_cons, seats_offered_cons, E1. simpl.
    rewrite Hk2, Ho2. simpl. eexists _, _.
    split; [reflexivity|]. split; [reflexivity|]. lia.
Qed.

(** X10. Seats are never created.  Along every run from the initialized
    station whose trains have non-negative sizes, with any number of
    controllers and passengers, the number of executions of the decrement
    of line 72 plus the seats still on offer never exceeds the number of
    seats put on offer by the assignments of line 29. *)
Theorem seats_conserved acts evs s :
  Forall legal acts → run acts initial = Some (evs, s) →
  ∃ k o, seats_taken acts initial = Some k ∧
         seats_offered acts initial = Some o ∧
         0 ≤ k ∧ k + seats_available (stn s) ≤ o ∧ k ≤ o.
Proof.
  intros Hl H.
  pose proof (run_seats_inv _ _ _ _ initial_mutex_inv initial_seats_inv Hl H)
    as [_ Hs _].
  destruct (run_seats_conserved acts initial 0 0 evs s initial_mutex_inv
              initial_seats_inv Hl) as (k & o & Hk & Ho & ? & ?);
    [lia | simpl; lia | exact H |].
  exists k, o. repeat split; try done; lia.
Qed.

Lemma seats_conserved_witness :
  let acts := arrive 1 ++ three_board in
  let s := state_after acts initial in
  seats_taken acts initial = Some 3 ∧ seats_offered acts initial = Some 3 ∧
  seats_available (stn s) = 0.
Proof.
  intros acts s.
  assert (Hl : Forall legal acts)
    by (subst acts; unfold three_board; check_schedule).
  assert (H : run acts initial = Some (events_after acts initial, s))
    by (vm_compute; reflexivity).
  destruct (seats_conserved acts _ s Hl H) as (k & o & Hk & Ho & _).
  assert (Hk3 : seats_taken acts initial = Some 3) by (vm_compute; reflexivity).
  assert (Ho3 : seats_offered acts initial = Some 3) by (vm_compute; reflexivity).
  split; [exact Hk3|]. split; [exact Ho3|]. vm_compute. reflexivity.
Defined.

(** ** The owner of the mutex is never stuck *)

(** X11. Nobody blocks while holding the mutex.  In a state reached from
    the initialized station by a run whose trains have non-negative sizes,
    and short of the overflow of [waiting] or [boarding], the thread that
    owns the mutex can execute its next statement; and when the mutex is
    free, so can every thread that stands at a [pthread_mutex_lock] or has
    been woken inside [pthread_cond_wait].  So the only threads that
    cannot move are those asleep on a condition variable and those waiting
    for a mutex whose owner can move. *)
Theorem mutex_owner_can_step acts evs s :
  Forall legal acts → run acts initial = Some (evs, s) →
  waiting (stn s) < INT_MAX → boarding (stn s) < INT_MAX →
  (∀ t, lock (stn s) = Some t → ∃ e s', step (Step t) s = Some (e, s')) ∧
  (lock (stn s) = None →
   ∀ t, (∃ n, pc_of s t = InLoad n L_lock ∨ pc_of s t = InLoad n L_wake)
        ∨ pc_of s t = InWait W_lock ∨ pc_of s t = InWait W_wake
        ∨ pc_of s t = InBoard O_lock →
        ∃ e s', step (Step t) s = Some (e, s')).
Proof.
  intros Hl H Hw Hb.
  assert (Hr : reachable s) by (eexists _, _; exact H).
  pose proof (run_seats_inv _ _ _ _ initial_mutex_inv initial_seats_inv Hl H)
    as [_ Hs _].
  pose proof (reachable_waiting_nonneg s Hr) as Hw0.
  assert (Hinc : ∀ z, z < INT_MAX → incr z = Some (z + 1)).
  { intros z Hz. unfold incr. by apply Z.ltb_lt in Hz as ->. }
  assert (Hdec : ∀ z, 0 ≤ z → decr z = Some (z - 1)).
  { intros z Hz. unfold decr.
    assert ((INT_MIN <? z) = true) as -> by (apply Z.ltb_lt; unfold INT_MIN; lia).
    done. }
  split.
  - intros t Ht. pose proof (reachable_lock_owner s t Hr Ht) as Hown.
    simpl. destruct (pc_of s t) as [|n []|[]|[]]; try discriminate Hown;
      simpl; rewrite ?(Hinc _ Hw), ?(Hinc _ Hb), ?(Hdec _ Hs), ?(Hdec _ Hw0);
      simpl; try (eexists _, _; reflexivity).
    + destruct (_ <? _); eexists _, _; reflexivity.
    + destruct (_ =? _); eexists _, _; reflexivity.
    + destruct (_ =? _); eexists _, _; reflexivity.
  - intros Hfree t Ht. simpl.
    destruct Ht as [(n & [Ht|Ht])|[Ht|[Ht|Ht]]]; rewrite Ht; simpl;
      unfold pthread_mutex_lock; rewrite Hfree; simpl;
      eexists _, _; reflexivity.
Qed.

Lemma mutex_owner_can_step_witness :
  let acts := arrive 1 ++ announce 0 2 ++ steps 1 3 ++ [Call 2 wait_for_train] in
  let s := state_after acts initial in
  pc_of s 1 = InWait W_dec_waiting ∧ lock (stn s) = Some 1%nat ∧
  ∃ e s', step (Step 1) s = Some (e, s').
Proof.
  intros acts s.
  assert (Hl : Forall legal acts) by (subst acts; check_schedule).
  assert (H : run acts initial = Some (events_after acts initial, s))
    by (vm_compute; reflexivity).
  assert (Hw : waiting (stn s) < INT_MAX) by (vm_compute; reflexivity).
  assert (Hb : boarding (stn s) < INT_MAX) by (vm_compute; reflexivity).
  assert (Ho : lock (stn s) = Some 1%nat) by (vm_compute; reflexivity).
  destruct (mutex_owner_can_step acts _ s Hl H Hw Hb) as [Hown _].
  split; [vm_compute; reflexivity|]. split; [exact Ho|].
  exact (Hown 1%nat Ho).
Defined.
